(** * coug_fgo evaluation plots: discovery, normalisation and aggregation

    A shallow embedding of the data-handling core of
    [src/eval/plots/traj_bench_plot.py] and [src/eval/plots/traj_plot.py]:
    identifier normalisation, per-file aggregation of metric tables, the
    trajectory-set builder and the control flow of the two [main] functions.
    Rendering (matplotlib, seaborn, evo) is kept as a list of render
    requests. *)

From stdpp Require Import gmap strings list fin_maps sorting.
From Stdlib Require Import Ascii QArith.

Close Scope Q_scope.

(** * Python strings and paths *)

Module PyStr.

(** [s.startswith(k)]. *)
Fixpoint startswith (k s : string) : bool :=
  match k, s with
  | EmptyString, _ => true
  | String a k', String b s' => if Ascii.eqb a b then startswith k' s' else false
  | String _ _, EmptyString => false
  end.

(** [k in s] on two [str]: [k] occurs as a contiguous substring of [s]. *)
Fixpoint contains (k s : string) : bool :=
  startswith k s ||
  match s with
  | EmptyString => false
  | String _ s' => contains k s'
  end.

(** [s.split("/")]: the segments between slashes, empty ones kept. *)
Fixpoint split_slash (s : string) : list string :=
  match s with
  | EmptyString => [EmptyString]
  | String c s' =>
      if Ascii.eqb c "/"%char then EmptyString :: split_slash s'
      else match split_slash s' with
           | h :: t => String c h :: t
           | [] => [String c EmptyString]
           end
  end.

(** [os.path.basename(p)]: what follows the last slash. *)
Definition basename (p : string) : string :=
  List.last (split_slash p) EmptyString.

(** The parts [pathlib.PurePosixPath] keeps of a path: empty segments and
    ["."] segments are dropped (the root is not a named part). *)
Definition parts (p : string) : list string :=
  filter (fun seg => seg <> EmptyString /\ seg <> ".") (split_slash p).

(** [Path(p).name]: the last part, [""] when there is none. *)
Definition name (p : string) : string := List.last (parts p) EmptyString.

(** [Path(p).parent.name]: the part before the last one. *)
Definition parent_name (p : string) : string :=
  List.last (removelast (parts p)) EmptyString.

End PyStr.

(** [k] occurs in [s]: the meaning of Python's [k in s]. *)
Definition substring_of (k s : string) : Prop :=
  exists a b, s = a +:+ k +:+ b.

(** * Exceptions

    The body of a [try] block either completes or raises; [except Exception]
    catches every raise. *)

Module Exc.

Inductive exc (A : Type) : Type :=
| Ok (a : A)
| Raise.
Arguments Ok {A} a.
Arguments Raise {A}.

Definition bind {A B} (c : exc A) (k : A -> exc B) : exc B :=
  match c with
  | Ok a => k a
  | Raise => Raise
  end.

(** A lookup that raises ([KeyError], [IOError], ...) when it finds nothing. *)
Definition of_option {A} (o : option A) : exc A :=
  match o with
  | Some a => Ok a
  | None => Raise
  end.

End Exc.

Notation "'let*' x ':=' c 'in' k" := (Exc.bind c (fun x => k))
  (at level 10, x name, c at level 100, k at level 200).

(** A trajectory is consumed as a sequence of 3D positions. *)
Definition Trajectory : Type := list (Q * Q * Q).

(** * [traj_plot.py]: the trajectory-set builder *)

Module TrajPlot.

Import Exc.

Definition ALGORITHMS : list string := ["FGO"; "TM"; "EKF"; "UKF"; "IEKF"; "DVL"].

(** A [dict] literal iterates in the order it is written. *)
Definition NAME_MAPPING : list (string * string) :=
  [("fgo", "FGO"); ("tm", "TM"); ("ekf", "EKF"); ("ukf", "UKF");
   ("iekf", "IEKF"); ("dvl", "DVL")].

(** What [file_interface.load_res_file(z, load_trajectories=True)] returns:
    the [info] dictionary and the trajectories by name. *)
Record res_file := {
  info : gmap string string;
  trajectories : gmap string Trajectory
}.

(** A discovered [*.zip] path together with what loading it yields
    ([None]: [load_res_file] raises). *)
Record zip := {
  zip_path : string;
  load_res_file : option res_file
}.

(** The accumulators of [load_trajectories], and the paths reported by
    ["Error loading ..."]. *)
Record traj_state := {
  est_trajs : gmap string Trajectory;
  gt_traj : option Trajectory;
  load_errors : list string
}.

Definition init_state : traj_state :=
  {| est_trajs := ∅; gt_traj := None; load_errors := [] |}.

(** The [for key, mapped_name in NAME_MAPPING.items(): ... break] loop:
    [algo_label] after the loop, [None] when no key matched. *)
Fixpoint first_match (mapping : list (string * string)) (parent : string)
  : option string :=
  match mapping with
  | [] => None
  | (key, mapped_name) :: rest =>
      if PyStr.contains key parent then Some mapped_name
      else first_match rest parent
  end.

(** [algo_label in ALGORITHMS], where [algo_label] may be [None]. *)
Definition in_catalog (catalog : list string) (algo_label : option string) : bool :=
  match algo_label with
  | Some l => bool_decide (l ∈ catalog)
  | None => false
  end.

(** The label under which an archive with parent directory [parent] is
    processed, [None] when the archive is skipped by
    [if algo_label not in ALGORITHMS: continue]. *)
Definition resolve (mapping : list (string * string)) (catalog : list string)
    (parent : string) : option string :=
  let algo_label := first_match mapping parent in
  if in_catalog catalog algo_label then algo_label else None.

Definition normalize (parent : string) : option string :=
  resolve NAME_MAPPING ALGORITHMS parent.

(** The first three statements of the [try] body: each may raise. *)
Definition read_zip (z : zip) : exc (string * string * gmap string Trajectory) :=
  let* res := of_option (load_res_file z) in
  let* ref_name := of_option (info res !! "ref_name") in
  let* est_name := of_option (info res !! "est_name") in
  Ok (PyStr.name ref_name, PyStr.name est_name, trajectories res).

(** The two assignments that end the [try] body. *)
Definition store_trajs (algo_label ref_id est_id : string)
    (trajs : gmap string Trajectory) (st : traj_state) : traj_state :=
  let gt :=
    match gt_traj st with
    | None => trajs !! ref_id
    | Some g => Some g
    end in
  let est :=
    match trajs !! est_id with
    | Some t => <[algo_label := t]> (est_trajs st)
    | None => est_trajs st
    end in
  {| est_trajs := est; gt_traj := gt; load_errors := load_errors st |}.

(** One iteration of [for z in zips]. *)
Definition load_step (st : traj_state) (z : zip) : traj_state :=
  if negb (PyStr.contains "ape_trans" (zip_path z)) then st
  else
    match normalize (PyStr.parent_name (zip_path z)) with
    | None => st
    | Some algo_label =>
        match read_zip z with
        | Ok (ref_id, est_id, trajs) => store_trajs algo_label ref_id est_id trajs st
        | Raise =>
            {| est_trajs := est_trajs st; gt_traj := gt_traj st;
               load_errors := load_errors st ++ [zip_path z] |}
        end
    end.

Definition load_trajectories (zips : list zip) : traj_state :=
  foldl load_step init_state zips.

(** What [plot_auv] hands to the plotting calls: the estimated
    trajectories in [ALGORITHMS] order, then the ground truth. *)
Record auv_plot := {
  plot_est : list (string * Trajectory);
  plot_gt : Trajectory
}.

Definition missing_algos (est : gmap string Trajectory) : list string :=
  filter (fun algo => est !! algo = None) ALGORITHMS.

Definition plotted (est : gmap string Trajectory) : list (string * Trajectory) :=
  omap (fun algo => (fun t => (algo, t)) <$> est !! algo) ALGORITHMS.

Inductive event :=
| Error_missing_root
| Loading
| Error_loading (path : string)
| Missing (auv_name : string) (algos : list string)
| No_truth (auv_name : string)
| Saved (auv_name : string) (p : auv_plot)
| Done.

Definition plot_auv (zips : list zip) (auv_name : string) : list event :=
  let st := load_trajectories zips in
  (Error_loading <$> load_errors st) ++
  (if decide (missing_algos (est_trajs st) = []) then []
   else [Missing auv_name (missing_algos (est_trajs st))]) ++
  match gt_traj st with
  | None => [No_truth auv_name]
  | Some gt => [Saved auv_name {| plot_est := plotted (est_trajs st); plot_gt := gt |}]
  end.

(** The directory tree under [bags].  A path is absent, a regular file or
    a directory: [exists()] holds of the last two, [is_dir()] of the last
    one only, and [iterdir()] raises [NotADirectoryError] on a regular
    file.  An agent entry carries the archives [glob] finds below it, in
    discovery order. *)
Record agent_entry := {
  agent_is_dir : bool;
  agent_name : string;
  agent_zips : list zip
}.

(** What [bag_dir / "evo"] is on disk. *)
Inductive evo_entry :=
| Evo_absent
| Evo_file
| Evo_dir (agents : list agent_entry).

Record bag_entry := {
  bag_is_dir : bool;
  bag_evo : evo_entry
}.

(** What [bags_root] is on disk. *)
Inductive root_entry :=
| Root_absent
| Root_file
| Root_dir (bags : list bag_entry).

(** A run of statements: what it printed and saved, and whether it
    completed or left through an exception nothing catches. *)
Definition run : Type := list event * exc unit.

(** The inner loop of [main], over [evo_dir.iterdir()]. *)
Definition plot_agents (agents : list agent_entry) : list event :=
  flat_map (fun a => if agent_is_dir a then plot_auv (agent_zips a) (agent_name a)
                     else []) agents.

(** The body of the loop of [main] over [bags_root.iterdir()]. *)
Definition plot_bag (bag : bag_entry) : run :=
  if negb (bag_is_dir bag) then ([], Ok ())
  else
    match bag_evo bag with
    | Evo_absent => ([], Ok ())
    | Evo_file => ([], Raise)
    | Evo_dir agents => (plot_agents agents, Ok ())
    end.

(** The loop over [bags_root.iterdir()]: an exception ends it. *)
Fixpoint plot_bags (bags : list bag_entry) : run :=
  match bags with
  | [] => ([], Ok ())
  | bag :: rest =>
      match plot_bag bag with
      | (es, Ok _) => let '(es', r) := plot_bags rest in (es ++ es', r)
      | (es, Raise) => (es, Raise)
      end
  end.

(** [main]: nothing catches what [iterdir()] raises, so the exception
    leaves [main] and [Done] is not printed. *)
Definition main (bags_root : root_entry) : run :=
  match bags_root with
  | Root_absent => ([Error_missing_root], Ok ())
  | Root_file => ([Loading], Raise)
  | Root_dir bags =>
      match plot_bags bags with
      | (es, Ok _) => ([Loading] ++ es ++ [Done], Ok ())
      | (es, Raise) => ([Loading] ++ es, Raise)
      end
  end.

End TrajPlot.

(** * [traj_bench_plot.py]: the metric aggregator *)

Module TrajBenchPlot.

Import Exc.

Definition ALGORITHMS : list string := ["FGO"; "TM"; "EKF"; "UKF"; "IEKF"; "DVL"].

Definition NAME_MAPPING : gmap string string :=
  list_to_map
    [("global", "FGO"); ("global_tm", "TM"); ("global_ekf", "EKF");
     ("global_ukf", "UKF"); ("global_iekf", "IEKF"); ("dvl", "DVL")].

(** [(filename, label, suffix)] *)
Definition METRICS_CONFIG : list (string * string * string) :=
  [("benchmark_ape_trans.csv", "APE Translation RMSE (m)", "ape_trans");
   ("benchmark_ape_rot.csv", "APE Rotation RMSE (deg)", "ape_rot");
   ("benchmark_rpe_trans.csv", "RPE Translation RMSE (m/m)", "rpe_trans");
   ("benchmark_rpe_rot.csv", "RPE Rotation RMSE (deg/m)", "rpe_rot")].

(** One appended [{"Algorithm": label, "RMSE": value}]. *)
Record metric_record := {
  Algorithm : string;
  RMSE : Q
}.

(** What [pd.read_csv(f, index_col=0)] returns, as far as it is read: the
    index with the [rmse] column, or the index alone when the table has no
    such column. *)
Inductive frame :=
| WithRmse (rows : list (string * Q))
| WithoutRmse (index : list string).

(** A discovered [benchmark_*.csv] path together with what reading it
    yields ([None]: [pd.read_csv] raises). *)
Record csv_file := {
  csv_path : string;
  read_csv : option frame
}.

(** [df.iterrows()]: each index key with the result of [row["rmse"]],
    [None] when that lookup raises [KeyError]. *)
Definition iterrows (df : frame) : list (string * option Q) :=
  match df with
  | WithRmse rows => (fun kv => (kv.1, Some kv.2)) <$> rows
  | WithoutRmse index => (fun k => (k, None)) <$> index
  end.

(** [NAME_MAPPING.get(algo_key, algo_key)] *)
Definition label_of (algo_key : string) : string :=
  default algo_key (NAME_MAPPING !! algo_key).

(** The label a row is stored under, [None] when [label in ALGORITHMS]
    fails and the row is dropped. *)
Definition normalize_row (algo_key : string) : option string :=
  let label := label_of algo_key in
  if bool_decide (label ∈ ALGORITHMS) then Some label else None.

(** The [for algo_key, row in df.iterrows()] loop on the list held under
    [filename]: the store as the loop leaves it, and whether it raised.
    Appends made before a raise stay. *)
Fixpoint append_rows (filename : string) (rows : list (string * option Q))
    (store : gmap string (list metric_record))
  : gmap string (list metric_record) * exc unit :=
  match rows with
  | [] => (store, Ok tt)
  | (algo_key, rmse) :: rest =>
      match normalize_row algo_key with
      | Some label =>
          match rmse with
          | Some v =>
              append_rows filename rest
                (alter (fun l => l ++ [{| Algorithm := label; RMSE := v |}])
                   filename store)
          | None => (store, Raise)
          end
      | None => append_rows filename rest store
      end
  end.

Record load_state := {
  data_store : gmap string (list metric_record);
  read_errors : list string
}.

(** [{cfg[0]: [] for cfg in METRICS_CONFIG}] *)
Definition init_store : gmap string (list metric_record) :=
  list_to_map ((fun cfg => (cfg.1.1, [])) <$> METRICS_CONFIG).

Definition init_state : load_state :=
  {| data_store := init_store; read_errors := [] |}.

(** One iteration of [for f in files]. *)
Definition load_step (st : load_state) (f : csv_file) : load_state :=
  let filename := PyStr.basename (csv_path f) in
  if bool_decide (is_Some (data_store st !! filename)) then
    match read_csv f with
    | None =>
        {| data_store := data_store st;
           read_errors := read_errors st ++ [csv_path f] |}
    | Some df =>
        match append_rows filename (iterrows df) (data_store st) with
        | (store, Ok _) => {| data_store := store; read_errors := read_errors st |}
        | (store, Raise) =>
            {| data_store := store; read_errors := read_errors st ++ [csv_path f] |}
        end
    end
  else st.

Definition scan (files : list csv_file) : load_state :=
  foldl load_step init_state files.

(** [load_data]: the tables that hold at least one record. *)
Definition load_data (files : list csv_file) : gmap string (list metric_record) :=
  filter (fun kv => kv.2 <> []) (data_store (scan files)).

(** The paths reported by ["Error reading ..."] during [load_data]. *)
Definition skipped (files : list csv_file) : list string :=
  read_errors (scan files).

(** [Series.unique()]: the distinct values, in order of first appearance. *)
Fixpoint unique (l : list string) : list string :=
  match l with
  | [] => []
  | x :: t => x :: filter (fun y => y <> x) (unique t)
  end.

Definition present_algos (df : list metric_record) : list string :=
  filter (fun algo => algo ∈ unique (Algorithm <$> df)) ALGORITHMS.

Definition missing_algos (df : list metric_record) : list string :=
  filter (fun algo => algo ∉ unique (Algorithm <$> df)) ALGORITHMS.

(** A row of the frame once its [Algorithm] column is categorical: the
    label, or NaN ([None]), and the [RMSE] value. *)
Record plot_row := {
  Category : option string;
  Value : Q
}.

(** [df["Algorithm"] = pd.Categorical(df["Algorithm"], categories=...,
    ordered=True)]: a label that is no category becomes NaN. *)
Definition categorical (categories : list string) (df : list metric_record)
  : list plot_row :=
  (fun r => {| Category := if decide (Algorithm r ∈ categories)
                           then Some (Algorithm r) else None;
               Value := RMSE r |}) <$> df.

(** The code a categorical column stores for a label: its position among
    the categories. *)
Fixpoint code (categories : list string) (label : string) : nat :=
  match categories with
  | [] => 0
  | c :: rest => if decide (c = label) then 0 else S (code rest label)
  end.

Inductive event :=
| Error_missing_root
| Loading
| Error_reading (path : string)
| Generating
| No_data_found
| No_data (filename : string)
| Missing (filename : string) (algos : list string)
| No_valid (filename : string)
| Saved (png : string) (categories : list string) (df : list plot_row)
| Done.

Section sorting.

(** [numpy.argsort], to which [sort_values] hands the codes with the
    default [kind="quicksort"]: the indices of the array in an order that
    sorts it.  Which of two equal codes comes first is numpy's choice, so
    the function is left open here. *)
Variable argsort : list nat -> list nat.

(** [df.sort_values("Algorithm")] on a categorical column: the rows that
    have a category are taken along the indices [argsort] returns for
    their codes, and the NaN rows follow in the order they had
    ([na_position="last"]). *)
Definition sort_values (categories : list string) (df : list plot_row)
  : list plot_row :=
  let valued := omap (fun r => (fun label => (label, r)) <$> Category r) df in
  let nans := filter (fun r => Category r = None) df in
  let codes := (fun lr => code categories lr.1) <$> valued in
  (omap (fun i => valued !! i) (argsort codes)).*2 ++ nans.

(** One iteration of [for filename, label, suffix in METRICS_CONFIG]. *)
Definition plot_metric (data_map : gmap string (list metric_record))
    (cfg : string * string * string) : list event :=
  let '(filename, label, suffix) := cfg in
  match data_map !! filename with
  | None => [No_data filename]
  | Some df =>
      let present := present_algos df in
      let missing := missing_algos df in
      (if decide (missing = []) then [] else [Missing filename missing]) ++
      (if decide (present = []) then [No_valid filename]
       else
         let sorted := sort_values present (categorical present df) in
         (fun plot_type => Saved (plot_type +:+ "_" +:+ suffix +:+ ".png") present sorted)
           <$> ["violin"; "box"])
  end.

Definition generate_plots (data_map : gmap string (list metric_record)) : list event :=
  if decide (data_map = ∅) then [No_data_found]
  else flat_map (plot_metric data_map) METRICS_CONFIG.

(** [main]: [bags_dir] is [None] when the directory does not exist,
    otherwise what [glob] finds below it, in discovery order. *)
Definition main (bags_dir : option (list csv_file)) : list event :=
  match bags_dir with
  | None => [Error_missing_root]
  | Some files =>
      [Loading] ++ (Error_reading <$> skipped files) ++
      [Generating] ++ generate_plots (load_data files) ++ [Done]
  end.

End sorting.

End TrajBenchPlot.

(** * Notions used to state the properties *)

Module TrajPlotSpec.

Import Exc TrajPlot.

(** No key of [mapping] occurs in [parent]. *)
Definition no_key_in (mapping : list (string * string)) (parent : string) : Prop :=
  Forall (fun kv => ~ substring_of kv.1 parent) mapping.

(** [(key, label)] is the first entry of [mapping], in iteration order,
    whose key occurs in [parent]. *)
Definition first_hit (mapping : list (string * string)) (parent key label : string)
  : Prop :=
  exists pre post,
    mapping = pre ++ (key, label) :: post /\
    substring_of key parent /\ no_key_in pre parent.

(** The label and estimated trajectory an archive writes into
    [est_trajs]: its path passes the [ape_trans] filter, its parent
    directory resolves to a label, loading does not raise and the
    estimate's name is among the trajectories. *)
Definition estimate_of (z : zip) : option (string * Trajectory) :=
  if PyStr.contains "ape_trans" (zip_path z) then
    match normalize (PyStr.parent_name (zip_path z)) with
    | Some algo_label =>
        match read_zip z with
        | Ok (_, est_id, trajs) => (fun t => (algo_label, t)) <$> trajs !! est_id
        | Raise => None
        end
    | None => None
    end
  else None.

(** The reference trajectory an archive offers as ground truth, under the
    same conditions, with the reference's name among the trajectories. *)
Definition reference_of (z : zip) : option Trajectory :=
  if PyStr.contains "ape_trans" (zip_path z) then
    match normalize (PyStr.parent_name (zip_path z)) with
    | Some _ =>
        match read_zip z with
        | Ok (ref_id, _, trajs) => trajs !! ref_id
        | Raise => None
        end
    | None => None
    end
  else None.

Definition traj_gt : Trajectory := [(0, 0, 0); (1, 1, 0)]%Q.
Definition traj_A : Trajectory := [(0, 0, 0); (1, 2, 0)]%Q.
Definition traj_B : Trajectory := [(0, 0, 0); (1, 1, 1)]%Q.

Definition sample_res (est : Trajectory) : res_file :=
  {| info := list_to_map [("ref_name", "/data/auv0/truth.tum");
                          ("est_name", "/data/auv0/estimate.tum")];
     trajectories := list_to_map [("truth.tum", traj_gt); ("estimate.tum", est)] |}.

Definition zip_fgo_A : zip :=
  {| zip_path := "bags/b1/evo/auv0/fgo_run1/ape_trans.zip";
     load_res_file := Some (sample_res traj_A) |}.

Definition zip_fgo_B : zip :=
  {| zip_path := "bags/b1/evo/auv0/fgo_run2/ape_trans.zip";
     load_res_file := Some (sample_res traj_B) |}.

End TrajPlotSpec.

Module TrajBenchPlotSpec.

Import Exc TrajBenchPlot.

(** The records a table contributes to its kind: one per row whose key is
    recognised, in row order; none when the table cannot be read or has no
    [rmse] column. *)
Definition records_of_rows (rows : list (string * Q)) : list metric_record :=
  omap (fun kv => (fun label => {| Algorithm := label; RMSE := kv.2 |})
                    <$> normalize_row kv.1) rows.

Definition contribution (f : csv_file) : list metric_record :=
  match read_csv f with
  | Some (WithRmse rows) => records_of_rows rows
  | _ => []
  end.

(** Processing the file raises inside the [try]: [pd.read_csv] raises, or
    the table has no [rmse] column and a row with a recognised key asks
    for it. *)
Definition raises (f : csv_file) : bool :=
  match read_csv f with
  | None => true
  | Some (WithRmse _) => false
  | Some (WithoutRmse index) =>
      existsb (fun k => bool_decide (is_Some (normalize_row k))) index
  end.

(** The file is named like one of the metric tables, so it is read. *)
Definition is_metric_table (f : csv_file) : bool :=
  bool_decide (is_Some (init_store !! PyStr.basename (csv_path f))).

Definition well_formed (f : csv_file) : Prop :=
  exists rows, read_csv f = Some (WithRmse rows).

(** All records merged for the table named [k]: the contributions of the
    files with that basename, in discovery order. *)
Definition table (files : list csv_file) (k : string) : list metric_record :=
  flat_map contribution (filter (fun f => PyStr.basename (csv_path f) = k) files).

(** The table of the example scenario. *)
Definition ape_trans_example : csv_file :=
  {| csv_path := "bags/run1/evo/benchmark_ape_trans.csv";
     read_csv := Some (WithRmse [("global", 1.2); ("global_tm", 2.0);
                                 ("unknown_algo", 9.9)]%Q) |}.

(** A table whose row key is already a catalog label. *)
Definition canonical_key_table : csv_file :=
  {| csv_path := "bags/run1/evo/benchmark_ape_trans.csv";
     read_csv := Some (WithRmse [("FGO", 1.5)]%Q) |}.

Definition corrupt_table : csv_file :=
  {| csv_path := "bags/run2/evo/benchmark_ape_trans.csv"; read_csv := None |}.

Definition run_a : csv_file :=
  {| csv_path := "bags/run_a/evo/benchmark_ape_trans.csv";
     read_csv := Some (WithRmse [("global", 1.0)]%Q) |}.

Definition run_b : csv_file :=
  {| csv_path := "bags/run_b/evo/benchmark_ape_trans.csv";
     read_csv := Some (WithRmse [("global", 2.0)]%Q) |}.

Definition in_ALGORITHMS (r : metric_record) : Prop := Algorithm r ∈ ALGORITHMS.

(** What [numpy.argsort] promises whatever its [kind]: the indices of the
    array, each once, such that the array read along them ascends.  The
    order of the indices of equal elements is not fixed by it. *)
Definition argsort_spec (argsort : list nat -> list nat) : Prop :=
  forall codes,
    argsort codes ≡ₚ seq 0 (length codes) /\
    Sorted le (omap (fun i => codes !! i) (argsort codes)).

(** One such function: a merge sort of the indices by their codes. *)
Definition code_le (a b : nat * nat) : Prop := a.2 <= b.2.

Definition code_le_dec : RelDecision code_le := fun a b => decide (a.2 <= b.2).

Definition stable_argsort (codes : list nat) : list nat :=
  (merge_sort code_le (H := code_le_dec) (zip (seq 0 (length codes)) codes)).*1.

(** The row the plots get for a record whose label is a category. *)
Definition row_of (r : metric_record) : plot_row :=
  {| Category := Some (Algorithm r); Value := RMSE r |}.

(** The rows of a frame that have a category, each with its label. *)
Definition valued (rows : list plot_row) : list (string * plot_row) :=
  omap (fun r => (fun label => (label, r)) <$> Category r) rows.

(** The rows handed to the plots for the table [df]. *)
Definition handed (argsort : list nat -> list nat) (df : list metric_record)
  : list plot_row :=
  sort_values argsort (present_algos df) (categorical (present_algos df) df).





End TrajBenchPlotSpec.

Module PipelineSpec.

Import TrajBenchPlotSpec.

(** A metric-plot event is in order: it is not the fatal error, and a
    render request names catalog labels only and has no NaN row. *)
Definition bench_event_ok (e : TrajBenchPlot.event) : Prop :=
  match e with
  | TrajBenchPlot.Error_missing_root => False
  | TrajBenchPlot.Saved _ categories df =>
      Forall (fun algo => algo ∈ TrajBenchPlot.ALGORITHMS) categories /\
      Forall (fun r => match TrajBenchPlot.Category r with
                       | Some label => label ∈ TrajBenchPlot.ALGORITHMS
                       | None => False
                       end) df
  | _ => True
  end.

Definition traj_event_ok (e : TrajPlot.event) : Prop :=
  match e with
  | TrajPlot.Saved _ p =>
      Forall (fun lt => lt.1 ∈ TrajPlot.ALGORITHMS) (TrajPlot.plot_est p)
  | _ => True
  end.

End PipelineSpec.

(** * [traj_plot.py]: the drawing calls of [plot_auv] *)

Module TrajPlotDraw.

Import Exc TrajPlot.

Definition COLORS : gmap string string :=
  list_to_map
    [("FGO", "#4C72B0"); ("TM", "#DD8452"); ("EKF", "#55A868");
     ("UKF", "#C44E52"); ("IEKF", "#8172B2"); ("DVL", "#FFC107");
     ("GT", "black")].

(** One call of [ax.scatter]: the two coordinates, the marker and its
    colour. *)
Record scatter := {
  sc_x : Q;
  sc_y : Q;
  sc_marker : string;
  sc_color : string
}.

(** [add_start_end_markers], with [x_idx, y_idx = 0, 1]: nothing for a
    trajectory without poses, otherwise one marker at [positions_xyz[0]]
    and one at [positions_xyz[-1]]. *)
Definition add_start_end_markers (traj : Trajectory)
    (start_symbol start_color end_symbol end_color : string) : list scatter :=
  if bool_decide (length traj = 0) then []
  else
    match traj !! 0, last traj with
    | Some start, Some end_ =>
        [{| sc_x := start.1.1; sc_y := start.1.2;
            sc_marker := start_symbol; sc_color := start_color |};
         {| sc_x := end_.1.1; sc_y := end_.1.2;
            sc_marker := end_symbol; sc_color := end_color |}]
    | _, _ => []
    end.

(** What is drawn on the axis: a [plot.traj] line, or a marker. *)
Inductive draw :=
| Traj_line (traj : Trajectory) (style color label : string)
| Marker (s : scatter).

(** The [for algo in ALGORITHMS] loop of [plot_auv]; [COLORS[algo]] raises
    [KeyError] for a label without a colour. *)
Fixpoint draw_estimates (algos : list string) (est_trajs : gmap string Trajectory)
  : exc (list draw) :=
  match algos with
  | [] => Ok []
  | algo :: rest =>
      match est_trajs !! algo with
      | Some traj =>
          let* color := of_option (COLORS !! algo) in
          let* more := draw_estimates rest est_trajs in
          Ok (Traj_line traj "-" color algo ::
              (Marker <$> add_start_end_markers traj "o" color "x" color) ++ more)
      | None => draw_estimates rest est_trajs
      end
  end.

(** Everything [plot_auv] draws once a ground truth was found. *)
Definition draw_auv (est_trajs : gmap string Trajectory) (gt_traj : Trajectory)
  : exc (list draw) :=
  let* estimates := draw_estimates ALGORITHMS est_trajs in
  let* color := of_option (COLORS !! "GT") in
  Ok (estimates ++
      Traj_line gt_traj "--" color "GT" ::
      (Marker <$> add_start_end_markers gt_traj "o" color "x" color)).

End TrajPlotDraw.

(** * Further notions used to state properties *)

Module MoreSpec.

Import Exc TrajPlotSpec TrajBenchPlotSpec.

(** The archive gets past both [continue] statements of
    [load_trajectories]. *)
Definition processed (z : TrajPlot.zip) : bool :=
  PyStr.contains "ape_trans" (TrajPlot.zip_path z) &&
  bool_decide (is_Some (TrajPlot.normalize (PyStr.parent_name (TrajPlot.zip_path z)))).

(** The archive is processed and its [try] body raises. *)
Definition fails (z : TrajPlot.zip) : bool :=
  processed z &&
  match TrajPlot.read_zip z with
  | Raise => true
  | Ok _ => false
  end.

(** The estimated trajectory the archive writes under [label], if any. *)
Definition writes (label : string) (z : TrajPlot.zip) : option Trajectory :=
  match estimate_of z with
  | Some (l, t) => if decide (l = label) then Some t else None
  | None => None
  end.

(** The labelled lines among the drawing calls, in drawing order. *)
Definition lines (ds : list TrajPlotDraw.draw) : list (string * Trajectory) :=
  omap (fun d => match d with
                 | TrajPlotDraw.Traj_line traj _ _ label => Some (label, traj)
                 | TrajPlotDraw.Marker _ => None
                 end) ds.

Definition markers (ds : list TrajPlotDraw.draw) : list TrajPlotDraw.scatter :=
  omap (fun d => match d with
                 | TrajPlotDraw.Marker s => Some s
                 | TrajPlotDraw.Traj_line _ _ _ _ => None
                 end) ds.

(** The outcome events of [plot_auv]: a saved figure or the notice that no
    truth was found. *)
Definition outcomes (events : list TrajPlot.event) : list TrajPlot.event :=
  omap (fun e => match e with
                 | TrajPlot.Saved _ _ | TrajPlot.No_truth _ => Some e
                 | _ => None
                 end) events.

(** A bag directory whose [evo] entry is a regular file: [exists()] holds
    of it and [iterdir()] raises on it. *)
Definition evo_is_file (bag : TrajPlot.bag_entry) : bool :=
  TrajPlot.bag_is_dir bag &&
  match TrajPlot.bag_evo bag with
  | TrajPlot.Evo_file => true
  | _ => false
  end.

(** The agent directories below the [evo] directory of a bag directory. *)
Definition agents_of (bag : TrajPlot.bag_entry) : list TrajPlot.agent_entry :=
  if TrajPlot.bag_is_dir bag then
    match TrajPlot.bag_evo bag with
    | TrajPlot.Evo_dir agents => filter (fun a => TrajPlot.agent_is_dir a = true) agents
    | _ => []
    end
  else [].

(** The bags that come before the first bag directory whose [evo] entry
    is a regular file. *)
Fixpoint bags_before_crash (bags : list TrajPlot.bag_entry) : list TrajPlot.bag_entry :=
  match bags with
  | [] => []
  | bag :: rest => if evo_is_file bag then [] else bag :: bags_before_crash rest
  end.

(** The agent directories [main] visits, in iteration order. *)
Definition agents_visited (bags : list TrajPlot.bag_entry) : list TrajPlot.agent_entry :=
  flat_map agents_of (bags_before_crash bags).

(** A tree for [main]: a plain file beside the bags, a bag with one agent,
    a bag whose [evo] is a regular file, and a further bag with one
    agent. *)
Definition agent_A : TrajPlot.agent_entry :=
  {| TrajPlot.agent_is_dir := true; TrajPlot.agent_name := "auv0";
     TrajPlot.agent_zips := [zip_fgo_A] |}.

Definition agent_B : TrajPlot.agent_entry :=
  {| TrajPlot.agent_is_dir := true; TrajPlot.agent_name := "auv1";
     TrajPlot.agent_zips := [zip_fgo_B] |}.

Definition bag_readme : TrajPlot.bag_entry :=
  {| TrajPlot.bag_is_dir := false; TrajPlot.bag_evo := TrajPlot.Evo_absent |}.

Definition bag_run1 : TrajPlot.bag_entry :=
  {| TrajPlot.bag_is_dir := true; TrajPlot.bag_evo := TrajPlot.Evo_dir [agent_A] |}.

Definition bag_evo_file : TrajPlot.bag_entry :=
  {| TrajPlot.bag_is_dir := true; TrajPlot.bag_evo := TrajPlot.Evo_file |}.

Definition bag_run3 : TrajPlot.bag_entry :=
  {| TrajPlot.bag_is_dir := true; TrajPlot.bag_evo := TrajPlot.Evo_dir [agent_B] |}.

(** The figures written by [generate_plots], in the order they are saved. *)
Definition saved_pngs (events : list TrajBenchPlot.event) : list string :=
  omap (fun e => match e with
                 | TrajBenchPlot.Saved png _ _ => Some png
                 | _ => None
                 end) events.

(** The file names of [METRICS_CONFIG]. *)
Definition metric_filenames : list string :=
  (fun cfg => cfg.1.1) <$> TrajBenchPlot.METRICS_CONFIG.

(** A frame whose third row has a label outside the categories FGO and
    TM, so that [pd.Categorical] made it NaN. *)
Definition frame_with_nan : list TrajBenchPlot.plot_row :=
  TrajBenchPlot.categorical ["FGO"; "TM"]
    [{| TrajBenchPlot.Algorithm := "TM"; TrajBenchPlot.RMSE := 2.0 |};
     {| TrajBenchPlot.Algorithm := "FGO"; TrajBenchPlot.RMSE := 1.2 |};
     {| TrajBenchPlot.Algorithm := "DVL"; TrajBenchPlot.RMSE := 4.5 |};
     {| TrajBenchPlot.Algorithm := "FGO"; TrajBenchPlot.RMSE := 1.0 |}]%Q.

(** An archive that is processed but whose loading raises. *)
Definition zip_broken : TrajPlot.zip :=
  {| TrajPlot.zip_path := "bags/b1/evo/auv0/fgo_run3/ape_trans.zip";
     TrajPlot.load_res_file := None |}.

(** A table that is no metric table of [METRICS_CONFIG]. *)
Definition foreign_table : TrajBenchPlot.csv_file :=
  {| TrajBenchPlot.csv_path := "bags/run1/evo/benchmark_summary.csv";
     TrajBenchPlot.read_csv := None |}.

(** Metric tables without an [rmse] column. *)
Definition no_rmse_unknown_rows : TrajBenchPlot.csv_file :=
  {| TrajBenchPlot.csv_path := "bags/run3/evo/benchmark_ape_rot.csv";
     TrajBenchPlot.read_csv := Some (TrajBenchPlot.WithoutRmse ["baseline"; "odometry"]) |}.

End MoreSpec.

(** * Facts about strings and paths *)

Example basename_ex :
  PyStr.basename "bags/run1/evo/benchmark_ape_trans.csv" = "benchmark_ape_trans.csv".
Proof. reflexivity. Qed.

Example parent_name_ex :
  PyStr.parent_name "bags/r1/evo/auv0/global_iekf/ape_trans.zip" = "global_iekf".
Proof. vm_compute. reflexivity. Qed.

Example parent_name_top : PyStr.parent_name "ape_trans.zip" = "".
Proof. vm_compute. reflexivity. Qed.

Example contains_ex :
  PyStr.contains "ekf" "global_iekf" = true /\ PyStr.contains "tm" "global_iekf" = false /\
  PyStr.contains "" "" = true.
Proof. vm_compute. auto. Qed.

Lemma startswith_spec k s :
  PyStr.startswith k s = true <-> exists b, s = k +:+ b.
Proof.
  revert s. induction k as [|c k IH]; intros s; simpl.
  - split; [intros _; by exists s | done].
  - destruct s as [|d s].
    + split; [done | intros [b Hb]; discriminate].
    + destruct (Ascii.eqb_spec c d) as [->|Hne].
      * rewrite IH. split; intros [b Hb]; exists b; [by rewrite Hb | by injection Hb].
      * split; [done | intros [b Hb]; injection Hb; congruence].
Qed.

Lemma contains_spec k s :
  PyStr.contains k s = true <-> substring_of k s.
Proof.
  split.
  - induction s as [|c s IH]; simpl; rewrite orb_true_iff.
    + intros [H|H]; [|done].
      apply startswith_spec in H as [b Hb]. by exists EmptyString, b.
    + intros [H|H].
      * apply startswith_spec in H as [b Hb]. by exists EmptyString, b.
      * destruct (IH H) as (a & b & ->). by exists (String c a), b.
  - intros (a & b & ->). induction a as [|c a IH]; simpl.
    + assert (PyStr.startswith k (k +:+ b) = true) as Hs
        by (apply startswith_spec; by exists b).
      destruct (k +:+ b); simpl in *; rewrite orb_true_iff; by left.
    + rewrite orb_true_iff. by right.
Qed.

Lemma contains_false k s :
  PyStr.contains k s = false <-> ~ substring_of k s.
Proof.
  rewrite <- contains_spec. destruct (PyStr.contains k s); split; congruence.
Qed.

Lemma append_assoc (a b c : string) : (a +:+ b) +:+ c = a +:+ b +:+ c.
Proof.
  induction a as [|x a IH]; [done |].
  change (String x ((a +:+ b) +:+ c) = String x (a +:+ b +:+ c)). by rewrite IH.
Qed.

(** A string that contains [String c k] contains [k]. *)
Lemma substring_of_tail c k s :
  substring_of (String c k) s -> substring_of k s.
Proof.
  intros (a & b & ->). exists (a +:+ String c EmptyString), b.
  by rewrite append_assoc.
Qed.

(** * The trajectory-set builder *)

Module TrajPlotFacts.

Import Exc TrajPlot TrajPlotSpec.

Lemma first_match_None mapping parent :
  first_match mapping parent = None <-> no_key_in mapping parent.
Proof.
  unfold no_key_in. induction mapping as [|[key lbl] rest IH]; simpl.
  - split; [constructor | done].
  - destruct (PyStr.contains key parent) eqn:Hc.
    + split; [done |]. intros H. apply Forall_cons in H as [H _].
      apply contains_spec in Hc. by destruct H.
    + rewrite IH, Forall_cons. apply contains_false in Hc. simpl. tauto.
Qed.

Lemma first_match_Some mapping parent label :
  first_match mapping parent = Some label <->
  exists key, first_hit mapping parent key label.
Proof.
  unfold first_hit, no_key_in.
  induction mapping as [|[key lbl] rest IH]; simpl.
  - split; [done |]. intros (k & pre & post & H & _). by destruct pre.
  - destruct (PyStr.contains key parent) eqn:Hc.
    + split.
      * intros [= <-]. exists key, [], rest. apply contains_spec in Hc.
        repeat split; [done | constructor].
      * intros (k & pre & post & Heq & Hk & Hpre).
        destruct pre as [|[k0 l0] pre]; simpl in Heq.
        -- by injection Heq as -> -> _.
        -- injection Heq as -> -> _. apply Forall_cons in Hpre as [Hn _].
           apply contains_spec in Hc. by destruct Hn.
    + rewrite IH. apply contains_false in Hc. split.
      * intros (k & pre & post & -> & Hk & Hpre).
        exists k, ((key, lbl) :: pre), post. repeat split; [done |].
        by apply Forall_cons.
      * intros (k & pre & post & Heq & Hk & Hpre).
        destruct pre as [|[k0 l0] pre]; simpl in Heq.
        -- injection Heq as -> -> _. by destruct Hc.
        -- injection Heq as -> -> ->. apply Forall_cons in Hpre as [_ Hpre].
           by exists k, pre, post.
Qed.

Lemma resolve_Some mapping catalog parent label :
  resolve mapping catalog parent = Some label <->
  first_match mapping parent = Some label /\ label ∈ catalog.
Proof.
  unfold resolve, in_catalog. destruct (first_match mapping parent) as [l|]; simpl.
  - case_bool_decide as Hin; split.
    + by intros [= <-].
    + by intros [Hl _].
    + done.
    + by intros [[= <-] Hl].
  - split; [done | by intros [? _]].
Qed.

(** C9. The trajectory-archive normaliser resolves a path component to
    the label of the first mapping key, in iteration order, that occurs in
    it as a substring, provided that label is in the catalog; it yields
    unrecognised when no key occurs in it, and also when the label of the
    first matching key is outside the catalog. *)
Theorem normalizer_first_substring_match
    (mapping : list (string * string)) (catalog : list string) (parent : string) :
  (forall label,
      resolve mapping catalog parent = Some label <->
      label ∈ catalog /\ exists key, first_hit mapping parent key label) /\
  (resolve mapping catalog parent = None <->
   no_key_in mapping parent \/
   exists key label, first_hit mapping parent key label /\ label ∉ catalog).
Proof.
  split.
  - intros label. rewrite resolve_Some, first_match_Some. tauto.
  - destruct (resolve mapping catalog parent) as [l|] eqn:Hr.
    + apply resolve_Some in Hr as [Hm Hin]. split; [done |].
      intros [Hno | (key & label & Hhit & Hout)].
      * apply first_match_None in Hno. congruence.
      * assert (first_match mapping parent = Some label) as Hm'
          by (apply first_match_Some; eauto).
        congruence.
    + split; [intros _ | done].
      destruct (first_match mapping parent) as [l|] eqn:Hm.
      * right. apply first_match_Some in Hm as [key Hhit].
        exists key, l. split; [done |]. intros Hin.
        assert (resolve mapping catalog parent = Some l) as Hr'.
        { apply resolve_Some. split; [|done]. apply first_match_Some. eauto. }
        congruence.
      * left. by apply first_match_None.
Qed.

Lemma load_step_est st z :
  est_trajs (load_step st z) =
  match estimate_of z with
  | Some (label, t) => <[label := t]> (est_trajs st)
  | None => est_trajs st
  end.
Proof.
  unfold load_step, estimate_of.
  destruct (PyStr.contains "ape_trans" (zip_path z)); simpl; [|done].
  destruct (normalize _) as [label|]; [|done].
  destruct (read_zip z) as [[[ref_id est_id] trajs]|]; simpl; [|done].
  by destruct (trajs !! est_id).
Qed.

Lemma load_step_gt st z :
  gt_traj (load_step st z) =
  match gt_traj st with
  | Some g => Some g
  | None => reference_of z
  end.
Proof.
  unfold load_step, reference_of.
  destruct (PyStr.contains "ape_trans" (zip_path z)); simpl;
    [|by destruct (gt_traj st)].
  destruct (normalize _) as [label|]; [|by destruct (gt_traj st)].
  destruct (read_zip z) as [[[ref_id est_id] trajs]|]; simpl;
    by destruct (gt_traj st).
Qed.

Lemma foldl_gt st zips :
  gt_traj (foldl load_step st zips) =
  match gt_traj st with
  | Some g => Some g
  | None => head (omap reference_of zips)
  end.
Proof.
  revert st. induction zips as [|z zips IH]; intros st; simpl.
  - by destruct (gt_traj st).
  - rewrite IH, load_step_gt. destruct (gt_traj st); [done |].
    by destruct (reference_of z).
Qed.

(** Archives that write nothing under [label] leave its entry as it was. *)
Lemma foldl_est_other st zips label :
  Forall (fun z => fst <$> estimate_of z <> Some label) zips ->
  est_trajs (foldl load_step st zips) !! label = est_trajs st !! label.
Proof.
  revert st. induction zips as [|z zips IH]; intros st Hall; simpl; [done |].
  apply Forall_cons in Hall as [Hz Hall]. rewrite IH by done.
  rewrite load_step_est. destruct (estimate_of z) as [[l t]|]; [|done].
  apply lookup_insert_ne. intros ->. by apply Hz.
Qed.

Lemma normalize_catalog parent label :
  normalize parent = Some label -> label ∈ ALGORITHMS.
Proof. intros H. by apply resolve_Some in H as [_ H]. Qed.

(** The key [ekf] comes before [iekf] and occurs wherever [iekf] does. *)
Lemma normalize_not_IEKF parent : normalize parent <> Some "IEKF".
Proof.
  intros H. apply resolve_Some in H as [H _].
  unfold NAME_MAPPING in H. simpl in H.
  destruct (PyStr.contains "fgo" parent); [done |].
  destruct (PyStr.contains "tm" parent); [done |].
  destruct (PyStr.contains "ekf" parent) eqn:Hekf; [done |].
  destruct (PyStr.contains "ukf" parent); [done |].
  destruct (PyStr.contains "iekf" parent) eqn:Hiekf.
  - apply contains_false in Hekf. apply contains_spec in Hiekf.
    destruct Hekf. by apply (substring_of_tail "i").
  - by destruct (PyStr.contains "dvl" parent).
Qed.

Lemma estimate_of_label z label t :
  estimate_of z = Some (label, t) -> label ∈ ALGORITHMS /\ label <> "IEKF".
Proof.
  unfold estimate_of.
  destruct (PyStr.contains "ape_trans" (zip_path z)); [|done].
  destruct (normalize _) as [l|] eqn:Hn; [|done].
  destruct (read_zip z) as [[[ref_id est_id] trajs]|]; [|done].
  destruct (trajs !! est_id); [|done]. intros [= -> _]. split.
  - by apply normalize_catalog in Hn.
  - intros ->. by apply normalize_not_IEKF in Hn.
Qed.

(** Every key of [est_trajs] is a label some archive resolved to. *)
Lemma foldl_est_labels (P : string -> Prop) st zips :
  (forall z label t, estimate_of z = Some (label, t) -> P label) ->
  map_Forall (fun label _ => P label) (est_trajs st) ->
  map_Forall (fun label _ => P label) (est_trajs (foldl load_step st zips)).
Proof.
  intros HP. revert st. induction zips as [|z zips IH]; intros st Hst; simpl; [done |].
  apply IH. rewrite load_step_est.
  destruct (estimate_of z) as [[l t]|] eqn:Hz; [|done].
  apply map_Forall_insert_2; [by eapply HP | done].
Qed.

(** ** The claims about [load_trajectories] *)

(** C2, as the code has it. A directory-name fragment that contains
    [iekf] is never resolved to IEKF: it resolves to the label of the
    first of the keys [fgo], [tm], [ekf] it contains, which is EKF when it
    contains neither [fgo] nor [tm]. Hence no estimated trajectory is ever
    stored under the IEKF label. *)
Theorem iekf_fragment_never_IEKF (parent : string) :
  substring_of "iekf" parent ->
  normalize parent =
    Some (if PyStr.contains "fgo" parent then "FGO"
          else if PyStr.contains "tm" parent then "TM" else "EKF") /\
  normalize parent <> Some "IEKF" /\
  forall zips, est_trajs (load_trajectories zips) !! "IEKF" = None.
Proof.
  intros Hi. split; [|split].
  - apply substring_of_tail, contains_spec in Hi.
    unfold normalize, resolve, NAME_MAPPING. simpl. rewrite Hi.
    destruct (PyStr.contains "fgo" parent); [done |].
    by destruct (PyStr.contains "tm" parent).
  - apply normalize_not_IEKF.
  - intros zips. unfold load_trajectories.
    destruct (est_trajs (foldl load_step init_state zips) !! "IEKF") as [t|] eqn:Ht;
      [|done].
    assert (map_Forall (fun label (_ : Trajectory) => label <> "IEKF")
              (est_trajs (foldl load_step init_state zips))) as Hall.
    { apply foldl_est_labels.
      - intros z label t' Hz. by apply estimate_of_label in Hz as [_ Hz].
      - apply map_Forall_empty. }
    by destruct (Hall _ _ Ht).
Qed.

(** C4. When two archives resolve to the same label and carry different
    estimated trajectories, and no archive discovered after the later one
    writes that label again, the trajectory stored under the label is the
    later archive's, not the earlier one's. *)
Theorem last_write_wins (pre mid post : list zip) (a b : zip)
    (label : string) (ta tb : Trajectory) :
  estimate_of a = Some (label, ta) ->
  estimate_of b = Some (label, tb) ->
  ta <> tb ->
  Forall (fun z => fst <$> estimate_of z <> Some label) post ->
  est_trajs (load_trajectories (pre ++ a :: mid ++ b :: post)) !! label = Some tb /\
  est_trajs (load_trajectories (pre ++ a :: mid ++ b :: post)) !! label <> Some ta.
Proof.
  intros Ha Hb Hne Hpost.
  assert (est_trajs (load_trajectories (pre ++ a :: mid ++ b :: post)) !! label
          = Some tb) as Hlast.
  { unfold load_trajectories.
    rewrite foldl_app. simpl. rewrite foldl_app. simpl.
    rewrite foldl_est_other by done.
    rewrite load_step_est, Hb. apply lookup_insert_eq. }
  split; [done |]. rewrite Hlast. congruence.
Qed.


Example load_two_fgo :
  est_trajs (load_trajectories [zip_fgo_A; zip_fgo_B]) !! "FGO" = Some traj_B /\
  gt_traj (load_trajectories [zip_fgo_A; zip_fgo_B]) = Some traj_gt.
Proof. vm_compute. done. Qed.

Lemma iekf_fragment_never_IEKF_witness :
  normalize "global_iekf" = Some "EKF" /\ normalize "global_iekf" <> Some "IEKF".
Proof.
  destruct (iekf_fragment_never_IEKF "global_iekf") as (H1 & H2 & _).
  - by exists "global_", "".
  - split; [exact H1 | exact H2].
Defined.

(** C2 as stated fails: a fragment that contains [iekf] and also [tm]
    resolves to TM, not to EKF. *)
Lemma iekf_fragment_not_always_EKF :
  substring_of "iekf" "run_tm_iekf" /\
  normalize "run_tm_iekf" = Some "TM" /\
  normalize "run_tm_iekf" <> Some "EKF".
Proof. split; [by exists "run_tm_", "" | by vm_compute]. Qed.

Lemma last_write_wins_witness :
  est_trajs (load_trajectories [zip_fgo_A; zip_fgo_B]) !! "FGO" = Some traj_B /\
  est_trajs (load_trajectories [zip_fgo_A; zip_fgo_B]) !! "FGO" <> Some traj_A.
Proof.
  apply (last_write_wins [] [] [] zip_fgo_A zip_fgo_B "FGO" traj_A traj_B).
  - vm_compute. reflexivity.
  - vm_compute. reflexivity.
  - discriminate.
  - constructor.
Defined.

End TrajPlotFacts.

(** * The metric aggregator *)

Module TrajBenchPlotFacts.

Import Exc TrajBenchPlot TrajBenchPlotSpec.

Lemma NAME_MAPPING_catalog key label :
  NAME_MAPPING !! key = Some label -> label ∈ ALGORITHMS.
Proof.
  intros H. apply elem_of_list_to_map_2 in H.
  repeat (apply elem_of_cons in H as [[= -> ->]|H];
          [by apply (bool_decide_unpack _) |]).
  by apply elem_of_nil in H.
Qed.

Lemma normalize_row_Some key label :
  normalize_row key = Some label <->
  NAME_MAPPING !! key = Some label \/
  (NAME_MAPPING !! key = None /\ key ∈ ALGORITHMS /\ label = key).
Proof.
  unfold normalize_row, label_of.
  destruct (NAME_MAPPING !! key) as [l|] eqn:Hk; simpl.
  - rewrite bool_decide_eq_true_2 by (by eapply NAME_MAPPING_catalog).
    split; [intros [= <-]; by left | intros [[= <-]|[? _]]; done].
  - case_bool_decide as Hin; split.
    + intros [= <-]. by right.
    + by intros [?|(_ & _ & ->)].
    + done.
    + by intros [?|(_ & ? & _)].
Qed.

Lemma normalize_row_catalog key label :
  normalize_row key = Some label -> label ∈ ALGORITHMS.
Proof.
  intros [H|(_ & H & ->)]%normalize_row_Some; [|done].
  by eapply NAME_MAPPING_catalog.
Qed.

Lemma alter_app_app (k : string) (xs ys : list metric_record)
    (m : gmap string (list metric_record)) :
  alter (fun l => l ++ ys) k (alter (fun l => l ++ xs) k m) =
  alter (fun l => l ++ xs ++ ys) k m.
Proof.
  apply map_eq. intros i. destruct (decide (k = i)) as [->|Hne].
  - rewrite !lookup_alter_eq. destruct (m !! i); simpl; [|done].
    by rewrite <- app_assoc.
  - by rewrite !lookup_alter_ne.
Qed.

Lemma alter_app_nil (k : string) (m : gmap string (list metric_record)) :
  alter (fun l => l ++ []) k m = m.
Proof.
  apply map_eq. intros i. destruct (decide (k = i)) as [->|Hne].
  - rewrite lookup_alter_eq. destruct (m !! i); simpl; [|done].
    by rewrite app_nil_r.
  - by rewrite lookup_alter_ne.
Qed.

Lemma append_rows_WithRmse filename rows store :
  append_rows filename (iterrows (WithRmse rows)) store =
  (alter (fun l => l ++ records_of_rows rows) filename store, Ok tt).
Proof.
  revert store. induction rows as [|[k v] rows IH]; intros store; simpl.
  - by rewrite alter_app_nil.
  - unfold records_of_rows. simpl. destruct (normalize_row k) as [label|]; simpl.
    + simpl in IH. rewrite IH. by rewrite alter_app_app.
    + apply IH.
Qed.

Lemma append_rows_WithoutRmse filename index store :
  append_rows filename (iterrows (WithoutRmse index)) store =
  (store,
   if existsb (fun k => bool_decide (is_Some (normalize_row k))) index
   then Raise else Ok tt).
Proof.
  induction index as [|k index IH]; simpl; [done |].
  destruct (normalize_row k) as [label|]; simpl; [done | apply IH].
Qed.

(** ** What one file contributes to the store *)

Lemma alter_absent (k : string) (g : list metric_record -> list metric_record)
    (m : gmap string (list metric_record)) :
  m !! k = None -> alter g k m = m.
Proof.
  intros Hk. apply map_eq. intros i. destruct (decide (k = i)) as [->|Hne].
  - by rewrite lookup_alter_eq, Hk.
  - by rewrite lookup_alter_ne.
Qed.

Lemma raises_contribution f : raises f = true -> contribution f = [].
Proof. unfold raises, contribution. by destruct (read_csv f) as [[rows|index]|]. Qed.

Lemma load_step_store st f :
  data_store (load_step st f) =
  alter (fun l => l ++ contribution f) (PyStr.basename (csv_path f)) (data_store st).
Proof.
  unfold load_step, contribution. case_bool_decide as Hin.
  - destruct (read_csv f) as [[rows|index]|].
    + by rewrite append_rows_WithRmse.
    + rewrite append_rows_WithoutRmse, alter_app_nil. by destruct (existsb _ _).
    + by rewrite alter_app_nil.
  - rewrite alter_absent; [done |].
    destruct (data_store st !! _) eqn:Hk; [|done]. destruct Hin. eauto.
Qed.

Lemma load_step_errors st f :
  read_errors (load_step st f) =
  read_errors st ++
  (if bool_decide (is_Some (data_store st !! PyStr.basename (csv_path f))) && raises f
   then [csv_path f] else []).
Proof.
  unfold load_step, raises. case_bool_decide as Hin; simpl.
  - destruct (read_csv f) as [[rows|index]|].
    + rewrite append_rows_WithRmse. simpl. by rewrite app_nil_r.
    + rewrite append_rows_WithoutRmse. destruct (existsb _ _); simpl; [done |].
      by rewrite app_nil_r.
    + done.
  - by rewrite app_nil_r.
Qed.

Lemma load_step_dom st f k :
  is_Some (data_store (load_step st f) !! k) <-> is_Some (data_store st !! k).
Proof. rewrite load_step_store. apply lookup_alter_is_Some. Qed.

Lemma foldl_store st files k :
  data_store (foldl load_step st files) !! k =
  (fun l => l ++ table files k) <$> data_store st !! k.
Proof.
  unfold table. revert st. induction files as [|f files IH]; intros st; simpl.
  - destruct (data_store st !! k); simpl; [|done]. by rewrite app_nil_r.
  - rewrite IH, load_step_store.
    destruct (decide (PyStr.basename (csv_path f) = k)) as [<-|Hne].
    + rewrite lookup_alter_eq, filter_cons_True by done. simpl.
      destruct (data_store st !! _); simpl; [|done]. by rewrite <- app_assoc.
    + by rewrite lookup_alter_ne, filter_cons_False.
Qed.

Lemma foldl_errors st files :
  read_errors (foldl load_step st files) =
  read_errors st ++
  flat_map (fun f =>
    if bool_decide (is_Some (data_store st !! PyStr.basename (csv_path f))) && raises f
    then [csv_path f] else []) files.
Proof.
  revert st. induction files as [|f files IH]; intros st; simpl.
  - by rewrite app_nil_r.
  - rewrite IH, load_step_errors, <- app_assoc. do 2 f_equal.
    apply flat_map_ext. intros g.
    by rewrite (bool_decide_ext _ _ (load_step_dom st f _)).
Qed.

Lemma init_store_lookup k l : init_store !! k = Some l -> l = [].
Proof.
  intros H. apply elem_of_list_to_map_2 in H. simpl in H.
  repeat (apply elem_of_cons in H as [[= -> ->]|H]; [done |]).
  by apply elem_of_nil in H.
Qed.

Lemma scan_store files k :
  data_store (scan files) !! k =
  if bool_decide (is_Some (init_store !! k)) then Some (table files k) else None.
Proof.
  unfold scan. rewrite foldl_store. simpl.
  destruct (init_store !! k) as [l|] eqn:Hk; simpl.
  - by apply init_store_lookup in Hk as ->.
  - done.
Qed.

Lemma load_data_lookup files k :
  load_data files !! k =
  if bool_decide (is_Some (init_store !! k))
  then (if decide (table files k = []) then None else Some (table files k))
  else None.
Proof.
  unfold load_data. rewrite map_lookup_filter, scan_store.
  case_bool_decide; simpl; [|done].
  case_decide as Ht; simpl.
  - by rewrite option_guard_False by (simpl; tauto).
  - by rewrite option_guard_True.
Qed.

Lemma well_formed_quiet st files :
  Forall well_formed files ->
  flat_map (fun f =>
    if bool_decide (is_Some (data_store st !! PyStr.basename (csv_path f))) && raises f
    then [csv_path f] else []) files = [].
Proof.
  induction 1 as [|f files [rows Hf] _ IH]; cbn [flat_map]; [done |].
  rewrite IH. unfold raises. rewrite Hf. by rewrite andb_false_r.
Qed.

(** ** The claims about [load_data] *)

(** C1, as the code has it. A row is stored under a label exactly when
    its key equals a key of [NAME_MAPPING] (the label is the mapped value)
    or the key is no mapping key but is itself a label of [ALGORITHMS]
    (the label is the key); matching is by equality of the whole key.
    Such a row appends one record with that label, every other row
    appends nothing. *)
Theorem row_label_exact_match (algo_key : string) :
  (forall label,
      normalize_row algo_key = Some label <->
      NAME_MAPPING !! algo_key = Some label \/
      (NAME_MAPPING !! algo_key = None /\ algo_key ∈ ALGORITHMS /\ label = algo_key)) /\
  (forall filename v rest store,
      append_rows filename ((algo_key, Some v) :: rest) store =
      append_rows filename rest
        (match normalize_row algo_key with
         | Some label =>
             alter (fun l => l ++ [{| Algorithm := label; RMSE := v |}]) filename store
         | None => store
         end)).
Proof.
  split.
  - intros label. apply normalize_row_Some.
  - intros filename v rest store. simpl. by destruct (normalize_row algo_key).
Qed.

(** C1 as stated fails: the key [FGO] is no key of the mapping, yet the
    row is recognised and contributes a record. *)
Lemma canonical_key_row_is_kept :
  NAME_MAPPING !! "FGO" = None /\
  normalize_row "FGO" = Some "FGO" /\
  load_data [canonical_key_table] !! "benchmark_ape_trans.csv" =
    Some [{| Algorithm := "FGO"; RMSE := 1.5 |}].
Proof. by vm_compute. Qed.

(** C6. A file of a metric table whose reading raises, met anywhere among
    well-formed files, leaves the aggregated tables as they are without
    it, and is the one file reported as skipped. *)
Theorem corrupt_file_isolated (valid1 valid2 : list csv_file) (bad : csv_file) :
  Forall well_formed (valid1 ++ valid2) ->
  is_metric_table bad = true ->
  raises bad = true ->
  load_data (valid1 ++ bad :: valid2) = load_data (valid1 ++ valid2) /\
  skipped (valid1 ++ bad :: valid2) = [csv_path bad] /\
  skipped (valid1 ++ valid2) = [].
Proof.
  intros Hvalid Htable Hraises.
  apply Forall_app in Hvalid as [H1 H2]. split; [|split].
  - unfold load_data. f_equal. apply map_eq. intros k.
    rewrite !scan_store. case_bool_decide; [|done]. f_equal.
    unfold table. rewrite !filter_app, !flat_map_app. f_equal.
    destruct (decide (PyStr.basename (csv_path bad) = k)) as [Hk|Hk].
    + rewrite filter_cons_True by done. simpl. by rewrite raises_contribution.
    + by rewrite filter_cons_False.
  - unfold skipped, scan. rewrite foldl_errors, flat_map_app.
    cbn [flat_map]. rewrite !well_formed_quiet by done.
    unfold is_metric_table in Htable. simpl. by rewrite Htable, Hraises.
  - unfold skipped, scan.
    by rewrite foldl_errors, flat_map_app, !well_formed_quiet.
Qed.

Lemma corrupt_file_isolated_witness :
  load_data ([ape_trans_example] ++ corrupt_table :: [run_a]) =
    load_data ([ape_trans_example] ++ [run_a]) /\
  skipped ([ape_trans_example] ++ corrupt_table :: [run_a]) = [csv_path corrupt_table] /\
  skipped ([ape_trans_example] ++ [run_a]) = [].
Proof.
  apply (corrupt_file_isolated [ape_trans_example] [run_a] corrupt_table).
  - repeat constructor; eexists; reflexivity.
  - vm_compute. reflexivity.
  - reflexivity.
Defined.

(** ** The sort of the codes *)

Lemma omap_lookup_seq {A} (pre l : list A) :
  omap (fun i => (pre ++ l) !! i) (seq (length pre) (length l)) = l.
Proof.
  revert pre. induction l as [|x l IH]; intros pre; [done |].
  cbn [length seq omap list_omap].
  rewrite lookup_app_r, Nat.sub_diag by lia. cbn [lookup list_lookup].
  f_equal. specialize (IH (pre ++ [x])).
  rewrite <- app_assoc, length_app, Nat.add_1_r in IH. exact IH.
Qed.

Lemma omap_lookup_Permutation {A} (l : list A) (indices : list nat) :
  indices ≡ₚ seq 0 (length l) -> omap (fun i => l !! i) indices ≡ₚ l.
Proof. intros ->. apply Permutation_refl', (omap_lookup_seq [] l). Qed.

Lemma fmap_omap_lookup {A B} (g : A -> B) (l : list A) (indices : list nat) :
  g <$> omap (fun i => l !! i) indices = omap (fun i => (g <$> l) !! i) indices.
Proof.
  induction indices as [|i indices IH]; [done |]. cbn [omap list_omap].
  rewrite list_lookup_fmap. destruct (l !! i); cbn; by rewrite IH.
Qed.

(** Rows taken along the indices [argsort] returns for their keys: the
    same rows, with ascending keys. *)
Lemma argsort_rows {A} argsort (key : A -> nat) (l : list A) :
  argsort_spec argsort ->
  omap (fun i => l !! i) (argsort (key <$> l)) ≡ₚ l /\
  Sorted le (key <$> omap (fun i => l !! i) (argsort (key <$> l))).
Proof.
  intros Hsort. destruct (Hsort (key <$> l)) as [Hp Hs]. split.
  - apply omap_lookup_Permutation. by rewrite Hp, length_fmap.
  - by rewrite fmap_omap_lookup.
Qed.

Lemma argsort_pair argsort a b :
  argsort_spec argsort -> argsort [a; b] = [0; 1] \/ argsort [a; b] = [1; 0].
Proof.
  intros Hsort. destruct (Hsort [a; b]) as [Hp _]. cbn in Hp.
  symmetry in Hp. by apply Permutation_length_2_inv in Hp.
Qed.

Lemma argsort_ascending_pair argsort a b :
  argsort_spec argsort -> a < b -> argsort [a; b] = [0; 1].
Proof.
  intros Hsort Hlt. destruct (argsort_pair argsort a b Hsort) as [H|H]; [done |].
  destruct (Hsort [a; b]) as [_ Hs]. rewrite H in Hs. cbn in Hs.
  apply Sorted_inv in Hs as [_ Hhd]. apply HdRel_inv in Hhd. lia.
Qed.

Lemma stable_argsort_lookup codes :
  Forall (fun p : nat * nat => codes !! p.1 = Some p.2) (zip (seq 0 (length codes)) codes).
Proof.
  apply Forall_forall. intros [i c] (j & Hj)%list_elem_of_lookup.
  apply lookup_zip_with_Some in Hj as (i' & c' & [= <- <-] & Hi & Hc).
  apply lookup_seq in Hi as [-> _]. done.
Qed.

Lemma omap_lookup_pairs (codes : list nat) (ps : list (nat * nat)) :
  Forall (fun p => codes !! p.1 = Some p.2) ps ->
  omap (fun i => codes !! i) ps.*1 = ps.*2.
Proof.
  induction 1 as [|p ps Hp _ IH]; [done |]. cbn. rewrite Hp. cbn. by rewrite IH.
Qed.

Lemma stable_argsort_spec : argsort_spec stable_argsort.
Proof.
  intros codes. unfold stable_argsort.
  set (ps := zip (seq 0 (length codes)) codes).
  pose proof (merge_sort_Permutation code_le (H := code_le_dec) ps) as Hp.
  assert (Total code_le) as Htotal by (intros a b; unfold code_le; lia).
  split.
  - rewrite Hp. unfold ps. by rewrite fst_zip by (by rewrite length_seq).
  - rewrite omap_lookup_pairs by (rewrite Hp; apply stable_argsort_lookup).
    apply (Sorted_fmap snd code_le le); [by intros ? ? |].
    by apply Sorted_merge_sort.
Qed.

(** C7. The example scenario: the rows [global], [global_tm] and
    [unknown_algo] aggregate to [(FGO, 1.2); (TM, 2.0)], in that order
    also after sorting, with FGO and TM present and the four other
    algorithms missing. *)
Theorem ape_trans_scenario (argsort : list nat -> list nat) :
  argsort_spec argsort ->
  load_data [ape_trans_example] !! "benchmark_ape_trans.csv" =
    Some [{| Algorithm := "FGO"; RMSE := 1.2 |}; {| Algorithm := "TM"; RMSE := 2.0 |}] /\
  main argsort (Some [ape_trans_example]) =
    [Loading; Generating;
     Missing "benchmark_ape_trans.csv" ["EKF"; "UKF"; "IEKF"; "DVL"];
     Saved "violin_ape_trans.png" ["FGO"; "TM"]
       [{| Category := Some "FGO"; Value := 1.2 |};
        {| Category := Some "TM"; Value := 2.0 |}];
     Saved "box_ape_trans.png" ["FGO"; "TM"]
       [{| Category := Some "FGO"; Value := 1.2 |};
        {| Category := Some "TM"; Value := 2.0 |}];
     No_data "benchmark_ape_rot.csv"; No_data "benchmark_rpe_trans.csv";
     No_data "benchmark_rpe_rot.csv"; Done].
Proof.
  intros Hsort. split; [by vm_compute |].
  pose proof (argsort_ascending_pair argsort 0 1 Hsort) as Hargs.
  vm_compute. rewrite Hargs by lia. reflexivity.
Qed.

Lemma ape_trans_scenario_witness :
  load_data [ape_trans_example] !! "benchmark_ape_trans.csv" =
    Some [{| Algorithm := "FGO"; RMSE := 1.2 |}; {| Algorithm := "TM"; RMSE := 2.0 |}] /\
  main stable_argsort (Some [ape_trans_example]) =
    [Loading; Generating;
     Missing "benchmark_ape_trans.csv" ["EKF"; "UKF"; "IEKF"; "DVL"];
     Saved "violin_ape_trans.png" ["FGO"; "TM"]
       [{| Category := Some "FGO"; Value := 1.2 |};
        {| Category := Some "TM"; Value := 2.0 |}];
     Saved "box_ape_trans.png" ["FGO"; "TM"]
       [{| Category := Some "FGO"; Value := 1.2 |};
        {| Category := Some "TM"; Value := 2.0 |}];
     No_data "benchmark_ape_rot.csv"; No_data "benchmark_rpe_trans.csv";
     No_data "benchmark_rpe_rot.csv"; Done].
Proof. apply (ape_trans_scenario stable_argsort). apply stable_argsort_spec. Defined.

(** ** Labels of the aggregated tables *)

Lemma records_of_rows_labels rows : Forall in_ALGORITHMS (records_of_rows rows).
Proof.
  apply Forall_forall. intros r (kv & _ & Hr)%list_elem_of_omap.
  destruct (normalize_row kv.1) as [label|] eqn:Hn; simplify_eq/=.
  by eapply normalize_row_catalog.
Qed.

Lemma contribution_labels f : Forall in_ALGORITHMS (contribution f).
Proof.
  unfold contribution.
  destruct (read_csv f) as [[rows|index]|]; auto using records_of_rows_labels.
Qed.

Lemma table_labels files k : Forall in_ALGORITHMS (table files k).
Proof.
  unfold table. apply Forall_flat_map, Forall_forall.
  intros f _. apply contribution_labels.
Qed.

Lemma load_data_labels files :
  map_Forall (fun _ df => Forall in_ALGORITHMS df) (load_data files).
Proof.
  intros k df. rewrite load_data_lookup.
  case_bool_decide; [|done]. case_decide; [done |].
  intros [= <-]. apply table_labels.
Qed.

(** ** Sorting by category *)

Lemma unique_elem x l : x ∈ unique l <-> x ∈ l.
Proof.
  induction l as [|y l IH]; simpl; [done |].
  rewrite !elem_of_cons, list_elem_of_filter, IH.
  destruct (decide (x = y)); tauto.
Qed.

Lemma present_algos_spec df :
  present_algos df = filter (fun algo => algo ∈ Algorithm <$> df) ALGORITHMS.
Proof. apply list_filter_iff. intros a. apply unique_elem. Qed.










(** ** Codes *)





(** ** The rows handed to the plots *)

Lemma sort_values_unfold argsort cats rows :
  sort_values argsort cats rows =
  (omap (fun i => valued rows !! i)
     (argsort ((fun lr => code cats lr.1) <$> valued rows))).*2 ++
  filter (fun r => Category r = None) rows.
Proof. reflexivity. Qed.

Lemma valued_nans_Permutation rows :
  (valued rows).*2 ++ filter (fun r => Category r = None) rows ≡ₚ rows.
Proof.
  unfold valued. induction rows as [|r rows IH]; [done |].
  cbn [omap list_omap]. destruct (Category r) as [label|] eqn:Hc; cbn.
  - rewrite decide_False by (by rewrite Hc). by rewrite IH.
  - rewrite decide_True by done. by rewrite <- Permutation_middle, IH.
Qed.

Lemma valued_labelled rows : Forall (fun lr => Category lr.2 = Some lr.1) (valued rows).
Proof.
  apply Forall_forall. intros [label r] (r' & _ & Hr)%list_elem_of_omap.
  destruct (Category r') eqn:Hc; by simplify_eq/=.
Qed.


(** Sorting neither drops, repeats nor invents a row. *)
Lemma sort_values_Permutation argsort cats rows :
  argsort_spec argsort -> sort_values argsort cats rows ≡ₚ rows.
Proof.
  intros Hsort. rewrite sort_values_unfold.
  destruct (argsort_rows argsort (fun lr => code cats lr.1) (valued rows) Hsort)
    as [Hp _].
  rewrite Hp. apply valued_nans_Permutation.
Qed.

(** Whatever [argsort] returns, the sorted rows are rows of the frame. *)
Lemma sort_values_elem argsort cats rows r :
  r ∈ sort_values argsort cats rows -> r ∈ rows.
Proof.
  rewrite sort_values_unfold, elem_of_app. intros [Hr|Hr].
  - apply list_elem_of_fmap in Hr as ([label r'] & -> & Hr).
    apply list_elem_of_omap in Hr as (i & _ & Hi).
    apply list_elem_of_lookup_2, list_elem_of_omap in Hi as (r'' & Hin & Hr'').
    destruct (Category r''); by simplify_eq/=.
  - by apply list_elem_of_filter in Hr as [_ Hr].
Qed.

(** When every label is a category, no row becomes NaN. *)
Lemma categorical_covered cats df :
  Forall (fun r => Algorithm r ∈ cats) df -> categorical cats df = row_of <$> df.
Proof.
  intros Hall. unfold categorical. apply Forall_fmap_ext.
  eapply Forall_impl; [exact Hall |]. intros r Hr. cbn beta.
  by rewrite decide_True.
Qed.








Lemma NoDup_ALGORITHMS : NoDup ALGORITHMS.
Proof. by apply (bool_decide_unpack _). Qed.


Lemma present_algos_covers df :
  Forall in_ALGORITHMS df -> Forall (fun r => Algorithm r ∈ present_algos df) df.
Proof.
  intros Hall. apply Forall_forall. intros r Hr.
  rewrite present_algos_spec. apply list_elem_of_filter. split.
  - apply list_elem_of_fmap. eauto.
  - by apply (proj1 (Forall_forall _ _) Hall).
Qed.



Lemma handed_Permutation argsort df :
  argsort_spec argsort -> Forall in_ALGORITHMS df ->
  handed argsort df ≡ₚ row_of <$> df.
Proof.
  intros Hsort Hall. unfold handed. rewrite sort_values_Permutation by done.
  by rewrite categorical_covered by (by apply present_algos_covers).
Qed.


(** ** Discovery order *)











End TrajBenchPlotFacts.

(** * What the two pipelines hand to rendering *)

Module PipelineFacts.

Import TrajPlotSpec TrajBenchPlotSpec PipelineSpec TrajPlotFacts TrajBenchPlotFacts.

Lemma sort_values_Forall argsort (P : TrajBenchPlot.plot_row -> Prop) cats rows :
  Forall P rows -> Forall P (TrajBenchPlot.sort_values argsort cats rows).
Proof.
  rewrite !Forall_forall. intros Hall r Hr%sort_values_elem. auto.
Qed.

Lemma present_algos_catalog df :
  Forall (fun algo => algo ∈ TrajBenchPlot.ALGORITHMS) (TrajBenchPlot.present_algos df).
Proof. apply Forall_forall. by intros a [_ Ha]%list_elem_of_filter. Qed.

Lemma categorical_catalog df :
  Forall in_ALGORITHMS df ->
  Forall (fun r => match TrajBenchPlot.Category r with
                   | Some label => label ∈ TrajBenchPlot.ALGORITHMS
                   | None => False
                   end)
    (TrajBenchPlot.categorical (TrajBenchPlot.present_algos df) df).
Proof.
  intros Hall. rewrite categorical_covered by (by apply present_algos_covers).
  apply Forall_fmap. eapply Forall_impl; [exact Hall |]. by intros r Hr.
Qed.

Lemma plot_metric_ok argsort data_map cfg :
  map_Forall (fun _ df => Forall in_ALGORITHMS df) data_map ->
  Forall bench_event_ok (TrajBenchPlot.plot_metric argsort data_map cfg).
Proof.
  intros Hmap. destruct cfg as [[filename label] suffix]. simpl.
  destruct (data_map !! filename) as [df|] eqn:Hdf; [|by repeat constructor].
  apply Forall_app. split; [case_decide; by repeat constructor |].
  case_decide; [by repeat constructor |].
  assert (bench_event_ok_saved :
            forall png, bench_event_ok
              (TrajBenchPlot.Saved png (TrajBenchPlot.present_algos df)
                 (TrajBenchPlot.sort_values argsort (TrajBenchPlot.present_algos df)
                    (TrajBenchPlot.categorical (TrajBenchPlot.present_algos df) df)))).
  { intros png. split; [apply present_algos_catalog |].
    apply sort_values_Forall, categorical_catalog. exact (Hmap _ _ Hdf). }
  cbn [fmap list_fmap].
  apply Forall_cons; split; [apply bench_event_ok_saved |].
  apply Forall_cons; split; [apply bench_event_ok_saved | constructor].
Qed.

Lemma generate_plots_ok argsort data_map :
  map_Forall (fun _ df => Forall in_ALGORITHMS df) data_map ->
  Forall bench_event_ok (TrajBenchPlot.generate_plots argsort data_map).
Proof.
  intros Hmap. unfold TrajBenchPlot.generate_plots.
  case_decide; [by repeat constructor |].
  apply Forall_flat_map, Forall_forall. intros cfg _. by apply plot_metric_ok.
Qed.

Lemma bench_main_ok argsort files :
  Forall bench_event_ok (TrajBenchPlot.main argsort (Some files)).
Proof.
  unfold TrajBenchPlot.main. repeat (apply Forall_app; split).
  - by repeat constructor.
  - apply Forall_fmap, Forall_forall. by intros p _.
  - by repeat constructor.
  - apply generate_plots_ok, load_data_labels.
  - by repeat constructor.
Qed.

Lemma plotted_catalog est :
  Forall (fun lt => lt.1 ∈ TrajPlot.ALGORITHMS) (TrajPlot.plotted est).
Proof.
  apply Forall_forall. intros [l t] (algo & Hin & Hl)%list_elem_of_omap.
  destruct (est !! algo); by simplify_eq/=.
Qed.

Lemma plot_auv_ok zips auv_name : Forall traj_event_ok (TrajPlot.plot_auv zips auv_name).
Proof.
  unfold TrajPlot.plot_auv. repeat (apply Forall_app; split).
  - apply Forall_fmap, Forall_forall. by intros p _.
  - case_decide; by repeat constructor.
  - destruct (TrajPlot.gt_traj _); repeat constructor. apply plotted_catalog.
Qed.

Lemma plot_bag_ok bag : Forall traj_event_ok (TrajPlot.plot_bag bag).1.
Proof.
  unfold TrajPlot.plot_bag.
  destruct (TrajPlot.bag_is_dir bag); simpl; [|constructor].
  destruct (TrajPlot.bag_evo bag) as [| |agents]; simpl; [constructor | constructor |].
  apply Forall_flat_map, Forall_forall. intros a _.
  destruct (TrajPlot.agent_is_dir a); [apply plot_auv_ok | constructor].
Qed.

Lemma plot_bags_ok bags : Forall traj_event_ok (TrajPlot.plot_bags bags).1.
Proof.
  induction bags as [|bag bags IH]; [constructor |]. cbn [TrajPlot.plot_bags].
  pose proof (plot_bag_ok bag) as Hbag.
  destruct (TrajPlot.plot_bag bag) as [es [[]|]]; [|done].
  destruct (TrajPlot.plot_bags bags) as [es' r]. by apply Forall_app.
Qed.

Lemma traj_main_ok root : Forall traj_event_ok (TrajPlot.main root).1.
Proof.
  destruct root as [| |bags]; [by repeat constructor | by repeat constructor |].
  unfold TrajPlot.main. pose proof (plot_bags_ok bags) as Hbags.
  destruct (TrajPlot.plot_bags bags) as [es [[]|]]; cbn [fst] in *.
  - repeat (apply Forall_app; split); first [by repeat constructor | done].
  - apply Forall_app; split; first [by repeat constructor | done].
Qed.

Lemma plot_auv_no_Done zips auv_name : TrajPlot.Done ∉ TrajPlot.plot_auv zips auv_name.
Proof.
  unfold TrajPlot.plot_auv. rewrite !elem_of_app, list_elem_of_fmap.
  intros [(p & ? & _)|[H|H]]; [done | |].
  - case_decide; [by apply elem_of_nil in H | by apply list_elem_of_singleton in H].
  - destruct (TrajPlot.gt_traj _); by apply list_elem_of_singleton in H.
Qed.

Lemma plot_bags_no_Done bags : TrajPlot.Done ∉ (TrajPlot.plot_bags bags).1.
Proof.
  induction bags as [|bag bags IH]; [apply not_elem_of_nil |]. cbn [TrajPlot.plot_bags].
  assert (TrajPlot.Done ∉ (TrajPlot.plot_bag bag).1) as Hbag.
  { unfold TrajPlot.plot_bag.
    destruct (TrajPlot.bag_is_dir bag); simpl; [|apply not_elem_of_nil].
    destruct (TrajPlot.bag_evo bag) as [| |agents]; simpl; try apply not_elem_of_nil.
    unfold TrajPlot.plot_agents. rewrite list_elem_of_In, in_flat_map.
    intros (a & _ & Ha). destruct (TrajPlot.agent_is_dir a); [|done].
    by apply list_elem_of_In, plot_auv_no_Done in Ha. }
  destruct (TrajPlot.plot_bag bag) as [es [[]|]]; [|done].
  destruct (TrajPlot.plot_bags bags) as [es' r]. cbn [fst] in *.
  rewrite elem_of_app. tauto.
Qed.

(** C8. Every record of an aggregated metric table, every key of the
    estimated trajectories, and every label in a render request of either
    pipeline is a member of [ALGORITHMS]; no row of a render request is
    NaN.  This holds whatever order the sort gives the rows. *)
Theorem labels_in_catalog
    (argsort : list nat -> list nat)
    (files : list TrajBenchPlot.csv_file) (zips : list TrajPlot.zip)
    (bags_root : TrajPlot.root_entry) :
  map_Forall
    (fun _ df => Forall (fun r => TrajBenchPlot.Algorithm r ∈ TrajBenchPlot.ALGORITHMS) df)
    (TrajBenchPlot.load_data files) /\
  Forall
    (fun e =>
       match e with
       | TrajBenchPlot.Saved _ categories df =>
           Forall (fun algo => algo ∈ TrajBenchPlot.ALGORITHMS) categories /\
           Forall (fun r => match TrajBenchPlot.Category r with
                            | Some label => label ∈ TrajBenchPlot.ALGORITHMS
                            | None => False
                            end) df
       | _ => True
       end)
    (TrajBenchPlot.main argsort (Some files)) /\
  map_Forall (fun label _ => label ∈ TrajPlot.ALGORITHMS)
    (TrajPlot.est_trajs (TrajPlot.load_trajectories zips)) /\
  Forall
    (fun e =>
       match e with
       | TrajPlot.Saved _ p =>
           Forall (fun lt => lt.1 ∈ TrajPlot.ALGORITHMS) (TrajPlot.plot_est p)
       | _ => True
       end)
    (TrajPlot.main bags_root).1.
Proof.
  split; [apply load_data_labels |]. split; [|split].
  - eapply Forall_impl; [apply bench_main_ok |]. by intros [].
  - unfold TrajPlot.load_trajectories.
    apply (foldl_est_labels (fun label => label ∈ TrajPlot.ALGORITHMS)).
    + intros z label t Hz. by apply estimate_of_label in Hz as [Hz _].
    + apply map_Forall_empty.
  - eapply Forall_impl; [apply traj_main_ok |]. by intros [].
Qed.

(** C10. With the root directory absent, either [main] reports the
    missing root and does nothing else.  That is not the only way
    [traj_plot.py] stops: a root that is a regular file, or a bag
    directory whose [evo] entry is a regular file, passes [exists()] and
    makes [iterdir()] raise out of [main].  In the tree of four entries
    the agent of the bag before the offending one is plotted, the agent of
    the bag after it is not, and [Done] is not printed. *)
Theorem evo_file_aborts_main :
  (forall argsort, TrajBenchPlot.main argsort None = [TrajBenchPlot.Error_missing_root]) /\
  TrajPlot.main TrajPlot.Root_absent = ([TrajPlot.Error_missing_root], Exc.Ok ()) /\
  TrajPlot.main TrajPlot.Root_file = ([TrajPlot.Loading], Exc.Raise) /\
  (forall bags,
      TrajPlot.main (TrajPlot.Root_dir (MoreSpec.bag_evo_file :: bags)) =
      ([TrajPlot.Loading], Exc.Raise)) /\
  TrajPlot.main
    (TrajPlot.Root_dir
       [MoreSpec.bag_readme; MoreSpec.bag_run1; MoreSpec.bag_evo_file; MoreSpec.bag_run3]) =
  ([TrajPlot.Loading;
    TrajPlot.Missing "auv0" ["TM"; "EKF"; "UKF"; "IEKF"; "DVL"];
    TrajPlot.Saved "auv0" {| TrajPlot.plot_est := [("FGO", traj_A)];
                             TrajPlot.plot_gt := traj_gt |}],
   Exc.Raise).
Proof. repeat split; by vm_compute. Qed.

End PipelineFacts.

(** * Further properties of the metric aggregator *)

Module TrajBenchPlotMore.

Import Exc TrajBenchPlot TrajBenchPlotSpec MoreSpec TrajBenchPlotFacts.

Lemma init_store_filenames k :
  is_Some (init_store !! k) <-> k ∈ metric_filenames.
Proof.
  rewrite <- elem_of_dom. unfold init_store.
  rewrite dom_list_to_map_L, elem_of_list_to_set.
  split; intros H; exact H.
Qed.

Lemma foldl_dom st files k :
  is_Some (data_store (foldl load_step st files) !! k) <-> is_Some (data_store st !! k).
Proof.
  revert st. induction files as [|f files IH]; intros st; simpl; [done |].
  by rewrite IH, load_step_dom.
Qed.

(** A file whose basename is no key of the store is skipped by
    [if filename not in data_store: continue]. *)
Lemma load_step_foreign st f :
  ~ is_Some (data_store st !! PyStr.basename (csv_path f)) -> load_step st f = st.
Proof. intros Hno. unfold load_step. by rewrite bool_decide_eq_false_2. Qed.

Lemma scan_app_cons l1 f l2 :
  scan (l1 ++ f :: l2) = foldl load_step (load_step (scan l1) f) l2.
Proof. unfold scan. by rewrite foldl_app. Qed.

Lemma scan_app l1 l2 : scan (l1 ++ l2) = foldl load_step (scan l1) l2.
Proof. unfold scan. by rewrite foldl_app. Qed.

(** X1. A discovered file whose name is none of the metric tables is never
    opened: wherever it stands, and whatever reading it would yield, the
    tables and the reported files are those of the other files. *)
Theorem foreign_file_ignored (l1 l2 : list csv_file) (f : csv_file) :
  is_metric_table f = false ->
  load_data (l1 ++ f :: l2) = load_data (l1 ++ l2) /\
  skipped (l1 ++ f :: l2) = skipped (l1 ++ l2).
Proof.
  intros Hf. unfold load_data, skipped.
  rewrite scan_app_cons, scan_app, load_step_foreign; [done |].
  unfold scan. rewrite foldl_dom. simpl.
  unfold is_metric_table in Hf. by apply bool_decide_eq_false in Hf.
Qed.

Lemma foreign_file_ignored_witness :
  load_data ([ape_trans_example] ++ foreign_table :: [run_a]) =
    load_data ([ape_trans_example] ++ [run_a]) /\
  skipped ([ape_trans_example] ++ foreign_table :: [run_a]) =
    skipped ([ape_trans_example] ++ [run_a]).
Proof.
  apply (foreign_file_ignored [ape_trans_example] [run_a] foreign_table).
  vm_compute. reflexivity.
Defined.

(** X2. [load_data] returns exactly the metric tables that received a
    record: under each such file name, the records of the recognised rows
    of all files of that name, files in discovery order and rows in table
    order; no other key, and no empty table. *)
Theorem load_data_tables (files : list csv_file) (k : string) (df : list metric_record) :
  load_data files !! k = Some df <->
  k ∈ metric_filenames /\ df = table files k /\ df <> [].
Proof.
  rewrite load_data_lookup, <- init_store_filenames.
  case_bool_decide as Hk.
  - case_decide as Ht; split.
    + done.
    + intros (_ & -> & Hne). by destruct Hne.
    + intros [= <-]. done.
    + by intros (_ & -> & _).
  - split; [done | by intros [? _]].
Qed.

(** X3. The files reported by ["Error reading"] are, in discovery order,
    the files named like a metric table whose processing raises. *)
Theorem skipped_files (files : list csv_file) :
  skipped files =
  csv_path <$> filter (fun f => is_metric_table f && raises f = true) files.
Proof.
  unfold skipped, scan. rewrite foldl_errors. simpl.
  induction files as [|f files IH]; [done |]. cbn [flat_map]. rewrite IH.
  fold (is_metric_table f).
  destruct (is_metric_table f && raises f) eqn:Hb.
  - by rewrite filter_cons_True.
  - rewrite filter_cons_False; [done | congruence].
Qed.

(** X4. A metric table without an [rmse] column none of whose row keys is
    recognised goes unnoticed: it raises nothing, is not reported, and
    leaves the whole state of the scan as if it had not been discovered. *)
Theorem unrecognised_rows_hide_missing_column
    (l1 l2 : list csv_file) (f : csv_file) (index : list string) :
  read_csv f = Some (WithoutRmse index) ->
  Forall (fun k => normalize_row k = None) index ->
  scan (l1 ++ f :: l2) = scan (l1 ++ l2).
Proof.
  intros Hf Hindex. rewrite scan_app_cons, scan_app. f_equal.
  unfold load_step. case_bool_decide; [|done].
  rewrite Hf, append_rows_WithoutRmse.
  assert (existsb (fun k => bool_decide (is_Some (normalize_row k))) index = false) as ->.
  { clear Hf. induction Hindex as [|k index Hk _ IH]; simpl; [done |].
    rewrite Hk, IH. by rewrite bool_decide_eq_false_2 by (by intros [? ?]). }
  by destruct (scan l1).
Qed.

Lemma unrecognised_rows_hide_missing_column_witness :
  scan ([ape_trans_example] ++ no_rmse_unknown_rows :: [run_a]) =
  scan ([ape_trans_example] ++ [run_a]).
Proof.
  apply (unrecognised_rows_hide_missing_column
           [ape_trans_example] [run_a] no_rmse_unknown_rows ["baseline"; "odometry"]).
  - reflexivity.
  - repeat constructor.
Defined.

(** X5. The labels the row normaliser produces are its fixed points: a
    row keyed by a label it produced is stored under that same label. *)
Theorem normalize_row_idempotent (algo_key label : string) :
  normalize_row algo_key = Some label -> normalize_row label = Some label.
Proof.
  intros H. apply normalize_row_catalog in H.
  unfold ALGORITHMS in H.
  repeat (apply elem_of_cons in H as [->|H]; [by vm_compute |]).
  by apply elem_of_nil in H.
Qed.

Lemma normalize_row_idempotent_witness : normalize_row "TM" = Some "TM".
Proof. apply (normalize_row_idempotent "global_tm" "TM"). reflexivity. Defined.

(** X6. For any table, the present and the missing algorithms split the
    catalog: together they are the six labels, none is in both, and the
    present ones are exactly the catalog labels some record carries. *)
Theorem coverage_partition (df : list metric_record) :
  present_algos df ++ missing_algos df ≡ₚ ALGORITHMS /\
  NoDup (present_algos df ++ missing_algos df) /\
  (forall algo,
      algo ∈ present_algos df <->
      algo ∈ ALGORITHMS /\ exists r, r ∈ df /\ Algorithm r = algo).
Proof.
  assert (present_algos df ++ missing_algos df ≡ₚ ALGORITHMS) as Hp
    by apply filter_app_complement.
  split; [done |]. split.
  - rewrite Hp. apply NoDup_ALGORITHMS.
  - intros algo. rewrite present_algos_spec, list_elem_of_filter, list_elem_of_fmap.
    split.
    + intros [(r & -> & Hr) Hin]. eauto.
    + intros [Hin (r & Hr & <-)]. eauto.
Qed.

(** X7. Sorting a frame for the plots neither drops, repeats nor invents
    a row: whatever the categories, and whichever rows are NaN, the sorted
    rows are a rearrangement of the frame's rows in which the NaN rows
    come last, in the order they had.  A table of catalog labels has no
    NaN row: the rows handed to the plots are its records, each with its
    label and its value, rearranged. *)
Theorem sorted_rows_rearrange
    (argsort : list nat -> list nat) (categories : list string)
    (rows : list plot_row) (df : list metric_record) :
  argsort_spec argsort ->
  Forall in_ALGORITHMS df ->
  sort_values argsort categories rows ≡ₚ rows /\
  (exists sorted,
      sort_values argsort categories rows =
        sorted ++ filter (fun r => Category r = None) rows /\
      Forall (fun r => is_Some (Category r)) sorted) /\
  handed argsort df ≡ₚ row_of <$> df.
Proof.
  intros Hsort Hall. split; [by apply sort_values_Permutation |].
  split; [|by apply handed_Permutation].
  eexists. split; [apply sort_values_unfold |].
  apply Forall_forall. intros r ([label r'] & -> & Hr)%list_elem_of_fmap.
  apply list_elem_of_omap in Hr as (i & _ & Hi).
  apply list_elem_of_lookup_2 in Hi.
  pose proof (proj1 (Forall_forall _ _) (valued_labelled rows) _ Hi) as Hlab.
  cbn in *. by rewrite Hlab.
Qed.

Lemma sorted_rows_rearrange_witness :
  sort_values stable_argsort ["FGO"; "TM"] frame_with_nan ≡ₚ frame_with_nan /\
  (exists sorted,
      sort_values stable_argsort ["FGO"; "TM"] frame_with_nan =
        sorted ++ filter (fun r => Category r = None) frame_with_nan /\
      Forall (fun r => is_Some (Category r)) sorted) /\
  handed stable_argsort (table [run_a; ape_trans_example; run_b] "benchmark_ape_trans.csv") ≡ₚ
    row_of <$> table [run_a; ape_trans_example; run_b] "benchmark_ape_trans.csv".
Proof.
  apply (sorted_rows_rearrange stable_argsort ["FGO"; "TM"] frame_with_nan
           (table [run_a; ape_trans_example; run_b] "benchmark_ape_trans.csv")).
  - apply stable_argsort_spec.
  - apply table_labels.
Defined.

Lemma present_algos_not_nil df :
  Forall in_ALGORITHMS df -> df <> [] -> present_algos df <> [].
Proof.
  intros Hall Hne Hnil. destruct df as [|r df]; [done |].
  apply present_algos_covers, Forall_cons in Hall as [Hr _].
  rewrite Hnil in Hr. by apply elem_of_nil in Hr.
Qed.

Lemma saved_pngs_flat_map {A} (g : A -> list event) l :
  saved_pngs (flat_map g l) = flat_map (fun x => saved_pngs (g x)) l.
Proof.
  unfold saved_pngs. induction l as [|x l IH]; [done |]. cbn [flat_map].
  by rewrite omap_app, IH.
Qed.

(** The events of one metric kind of an aggregated table: the notice of
    missing algorithms, if any, then the violin and the box figure. *)
Lemma plot_metric_load_data argsort files filename label suffix :
  plot_metric argsort (load_data files) (filename, label, suffix) =
  match load_data files !! filename with
  | None => [No_data filename]
  | Some df =>
      (if decide (missing_algos df = []) then [] else [Missing filename (missing_algos df)]) ++
      [Saved ("violin" +:+ "_" +:+ suffix +:+ ".png") (present_algos df) (handed argsort df);
       Saved ("box" +:+ "_" +:+ suffix +:+ ".png") (present_algos df) (handed argsort df)]
  end.
Proof.
  cbn [plot_metric]. destruct (load_data files !! filename) as [df|] eqn:Hdf; [|done].
  rewrite load_data_lookup in Hdf.
  case_bool_decide; [|done]. case_decide as Hne; [done |]. injection Hdf as <-.
  destruct (decide (present_algos (table files filename) = [])) as [He|He]; [|done].
  exfalso. revert He. apply present_algos_not_nil; [apply table_labels | done].
Qed.

(** X8. Every metric kind that received a record is drawn exactly twice,
    as a violin and as a box figure, kinds in the order of
    [METRICS_CONFIG]; no kind is ever skipped for having no valid
    algorithm, since a table of [load_data] holds catalog labels only. *)
Theorem figures_saved (argsort : list nat -> list nat) (files : list csv_file) :
  saved_pngs (main argsort (Some files)) =
    flat_map
      (fun cfg =>
         if bool_decide (is_Some (load_data files !! cfg.1.1))
         then ["violin" +:+ "_" +:+ cfg.2 +:+ ".png"; "box" +:+ "_" +:+ cfg.2 +:+ ".png"]
         else [])
      METRICS_CONFIG /\
  Forall (fun e => match e with No_valid _ => False | _ => True end)
    (main argsort (Some files)).
Proof.
  assert (forall paths, saved_pngs (Error_reading <$> paths) = []) as Herr
    by (induction paths; [done | by cbn]).
  assert (forall paths, Forall (fun e => match e with No_valid _ => False | _ => True end)
                          (Error_reading <$> paths)) as Herr'
    by (intros paths; apply Forall_fmap, Forall_forall; by intros ? _).
  unfold main, generate_plots. split.
  - unfold saved_pngs at 1. rewrite !omap_app. fold (saved_pngs (Error_reading <$> skipped files)).
    rewrite Herr. cbn [omap app]. rewrite app_nil_r.
    case_decide as Hempty.
    + rewrite Hempty. by vm_compute.
    + fold (saved_pngs (flat_map (plot_metric argsort (load_data files)) METRICS_CONFIG)).
      rewrite saved_pngs_flat_map. apply flat_map_ext. intros [[filename label] suffix].
      rewrite plot_metric_load_data. cbn [fst snd].
      destruct (load_data files !! filename) as [df|]; simpl; [|done].
      unfold saved_pngs. rewrite omap_app. by case_decide.
  - repeat (apply Forall_app; split);
      first [by repeat constructor | apply Herr' | idtac].
    case_decide; [by repeat constructor |].
    apply Forall_flat_map, Forall_forall. intros [[filename label] suffix] _.
    rewrite plot_metric_load_data.
    destruct (load_data files !! filename) as [df|]; [|by repeat constructor].
    apply Forall_app. split; [case_decide; by repeat constructor |].
    by repeat constructor.
Qed.

End TrajBenchPlotMore.

(** * Further properties of the trajectory-set builder *)

Module TrajPlotMore.

Import Exc TrajPlot TrajPlotSpec TrajPlotDraw MoreSpec TrajPlotFacts.

Lemma load_step_unprocessed st z : processed z = false -> load_step st z = st.
Proof.
  unfold processed, load_step.
  destruct (PyStr.contains "ape_trans" (zip_path z)); simpl; [|done].
  destruct (normalize _) as [label|]; [|done].
  by rewrite bool_decide_eq_true_2 by eauto.
Qed.

Lemma load_step_load_errors st z :
  load_errors (load_step st z) =
  load_errors st ++ (if fails z then [zip_path z] else []).
Proof.
  unfold fails, processed, load_step.
  destruct (PyStr.contains "ape_trans" (zip_path z)); simpl; [|by rewrite app_nil_r].
  destruct (normalize _) as [label|]; simpl; [|by rewrite app_nil_r].
  destruct (read_zip z) as [[[ref_id est_id] trajs]|]; simpl; [|done].
  by rewrite app_nil_r.
Qed.

Lemma foldl_load_errors st zips :
  load_errors (foldl load_step st zips) =
  load_errors st ++ (zip_path <$> filter (fun z => fails z = true) zips).
Proof.
  revert st. induction zips as [|z zips IH]; intros st; simpl.
  - by rewrite app_nil_r.
  - rewrite IH, load_step_load_errors, <- app_assoc. f_equal.
    destruct (fails z) eqn:Hz.
    + by rewrite filter_cons_True.
    + rewrite filter_cons_False; [done | congruence].
Qed.

(** The trajectories after a scan depend on the trajectories before it,
    not on the errors reported so far. *)
Lemma foldl_trajs_ext st st' zips :
  est_trajs st = est_trajs st' -> gt_traj st = gt_traj st' ->
  est_trajs (foldl load_step st zips) = est_trajs (foldl load_step st' zips) /\
  gt_traj (foldl load_step st zips) = gt_traj (foldl load_step st' zips).
Proof.
  revert st st'. induction zips as [|z zips IH]; intros st st' He Hg; simpl; [done |].
  apply IH.
  - rewrite !load_step_est. by rewrite He.
  - rewrite !load_step_gt. by rewrite Hg.
Qed.

Lemma fails_contributes_nothing z :
  fails z = true -> estimate_of z = None /\ reference_of z = None.
Proof.
  unfold fails, processed, estimate_of, reference_of.
  destruct (PyStr.contains "ape_trans" (zip_path z)); simpl; [|done].
  destruct (normalize _) as [label|]; simpl; [|done].
  by destruct (read_zip z) as [[[ref_id est_id] trajs]|].
Qed.

(** X9. Archives whose path lacks [ape_trans], or whose directory name
    resolves to no catalog label, are never opened: the scan gives the
    same trajectories and the same reports as the scan of the other
    archives alone. *)
Theorem unprocessed_archives_ignored (zips : list zip) :
  load_trajectories zips =
  load_trajectories (filter (fun z => processed z = true) zips).
Proof.
  unfold load_trajectories. generalize init_state.
  induction zips as [|z zips IH]; intros st; [done |].
  destruct (processed z) eqn:Hz.
  - rewrite filter_cons_True by done. simpl. apply IH.
  - rewrite filter_cons_False by congruence. simpl.
    rewrite load_step_unprocessed by done. apply IH.
Qed.

(** X10. The archives reported by ["Error loading"] are, in discovery
    order, the processed archives whose loading raises. *)
Theorem load_errors_are_failures (zips : list zip) :
  load_errors (load_trajectories zips) =
  zip_path <$> filter (fun z => fails z = true) zips.
Proof. unfold load_trajectories. by rewrite foldl_load_errors. Qed.

(** X11. An archive whose loading raises changes neither the estimated
    trajectories nor the ground truth, wherever it is discovered; it adds
    its own path, once, to the reported errors. *)
Theorem failing_archive_isolated (l1 l2 : list zip) (bad : zip) :
  fails bad = true ->
  est_trajs (load_trajectories (l1 ++ bad :: l2)) = est_trajs (load_trajectories (l1 ++ l2)) /\
  gt_traj (load_trajectories (l1 ++ bad :: l2)) = gt_traj (load_trajectories (l1 ++ l2)) /\
  load_errors (load_trajectories (l1 ++ bad :: l2)) =
    load_errors (load_trajectories l1) ++ zip_path bad :: load_errors (load_trajectories l2).
Proof.
  intros Hbad. destruct (fails_contributes_nothing bad Hbad) as [He Hr].
  unfold load_trajectories.
  assert (est_trajs (load_step (foldl load_step init_state l1) bad) =
          est_trajs (foldl load_step init_state l1)) as Hest
    by (by rewrite load_step_est, He).
  assert (gt_traj (load_step (foldl load_step init_state l1) bad) =
          gt_traj (foldl load_step init_state l1)) as Hgt
    by (rewrite load_step_gt, Hr; by destruct (gt_traj _)).
  rewrite !foldl_app. simpl.
  destruct (foldl_trajs_ext _ _ l2 Hest Hgt) as [-> ->].
  split; [done |]. split; [done |].
  rewrite !foldl_load_errors, load_step_load_errors, Hbad.
  rewrite (foldl_load_errors init_state l1). simpl.
  by rewrite <- !app_assoc.
Qed.

Lemma failing_archive_isolated_witness :
  est_trajs (load_trajectories ([zip_fgo_A] ++ zip_broken :: [zip_fgo_B])) =
    est_trajs (load_trajectories ([zip_fgo_A] ++ [zip_fgo_B])) /\
  gt_traj (load_trajectories ([zip_fgo_A] ++ zip_broken :: [zip_fgo_B])) =
    gt_traj (load_trajectories ([zip_fgo_A] ++ [zip_fgo_B])) /\
  load_errors (load_trajectories ([zip_fgo_A] ++ zip_broken :: [zip_fgo_B])) =
    load_errors (load_trajectories [zip_fgo_A]) ++
    zip_path zip_broken :: load_errors (load_trajectories [zip_fgo_B]).
Proof.
  apply (failing_archive_isolated [zip_fgo_A] [zip_fgo_B] zip_broken).
  vm_compute. reflexivity.
Defined.

(** X12. The trajectory stored under a label is the estimate of the last
    archive, in discovery order, that writes that label; the label has no
    entry exactly when no archive writes it. *)
Theorem stored_estimate_is_last_written (zips : list zip) (label : string) :
  est_trajs (load_trajectories zips) !! label = last (omap (writes label) zips).
Proof.
  unfold load_trajectories. induction zips as [|z zips IH] using rev_ind; [done |].
  rewrite foldl_snoc, load_step_est, omap_app, last_app. unfold writes at 1. simpl.
  destruct (estimate_of z) as [[l t]|]; simpl; [|done].
  destruct (decide (l = label)) as [->|Hne]; simpl.
  - apply lookup_insert_eq.
  - by rewrite lookup_insert_ne.
Qed.

Lemma plotted_labels (est : gmap string Trajectory) (algos : list string) :
  (omap (fun algo => (fun t => (algo, t)) <$> est !! algo) algos).*1 =
  filter (fun algo => is_Some (est !! algo)) algos.
Proof.
  induction algos as [|a algos IH]; [done |]. cbn [omap list_omap].
  destruct (est !! a) as [t|] eqn:Ha; cbn [fmap option_fmap option_map].
  - rewrite filter_cons_True by (rewrite Ha; eauto). by rewrite fmap_cons, IH.
  - rewrite filter_cons_False by (rewrite Ha; by intros [? ?]). done.
Qed.

Lemma load_trajectories_keys zips label t :
  est_trajs (load_trajectories zips) !! label = Some t -> label ∈ ALGORITHMS.
Proof.
  revert label t. unfold load_trajectories.
  apply (foldl_est_labels (fun label => label ∈ ALGORITHMS)).
  - intros z label t Hz. by apply estimate_of_label in Hz as [Hz _].
  - apply map_Forall_empty.
Qed.

(** X13. Every estimated trajectory the scan stored is drawn, and nothing
    else: the plotted pairs are the entries of [est_trajs], their labels
    come in catalog order, and together with the labels reported missing
    they make up the catalog. *)
Theorem stored_estimates_are_plotted (zips : list zip) :
  (forall label t,
      (label, t) ∈ plotted (est_trajs (load_trajectories zips)) <->
      est_trajs (load_trajectories zips) !! label = Some t) /\
  (plotted (est_trajs (load_trajectories zips))).*1 =
    filter (fun algo => is_Some (est_trajs (load_trajectories zips) !! algo)) ALGORITHMS /\
  missing_algos (est_trajs (load_trajectories zips)) ++
    (plotted (est_trajs (load_trajectories zips))).*1 ≡ₚ ALGORITHMS.
Proof.
  set (est := est_trajs (load_trajectories zips)).
  assert ((plotted est).*1 = filter (fun algo => is_Some (est !! algo)) ALGORITHMS)
    as Hlabels by apply plotted_labels.
  split; [|split; [done |]].
  - intros label t. unfold plotted. rewrite list_elem_of_omap. split.
    + intros (algo & _ & Ht). destruct (est !! algo) eqn:Ha; by simplify_eq/=.
    + intros Ht. exists label. split; [by eapply load_trajectories_keys |].
      by rewrite Ht.
  - rewrite Hlabels. unfold missing_algos.
    rewrite (list_filter_iff (fun algo => is_Some (est !! algo))
               (fun algo => ~ est !! algo = None))
      by (intros a; by rewrite not_eq_None_Some).
    apply filter_app_complement.
Qed.

Lemma outcomes_Error_loading paths : outcomes (Error_loading <$> paths) = [].
Proof. induction paths; [done | by cbn]. Qed.

Lemma outcomes_app es es' : outcomes (es ++ es') = outcomes es ++ outcomes es'.
Proof. apply omap_app. Qed.

Lemma outcomes_flat_map {A} (g : A -> list event) l :
  outcomes (flat_map g l) = flat_map (fun x => outcomes (g x)) l.
Proof.
  induction l as [|x l IH]; [done |]. cbn [flat_map].
  by rewrite outcomes_app, IH.
Qed.

Lemma plot_auv_outcome zips auv_name :
  outcomes (plot_auv zips auv_name) =
  [match head (omap reference_of zips) with
   | Some gt =>
       Saved auv_name
         {| plot_est := plotted (est_trajs (load_trajectories zips)); plot_gt := gt |}
   | None => No_truth auv_name
   end].
Proof.
  unfold plot_auv. rewrite !outcomes_app, outcomes_Error_loading. cbn [app].
  assert (gt_traj (load_trajectories zips) = head (omap reference_of zips)) as ->
    by (unfold load_trajectories; by rewrite foldl_gt).
  case_decide; by destruct (head (omap reference_of zips)).
Qed.

(** X14. Each agent directory ends in exactly one outcome: the figure,
    with the estimates and the ground truth, when some processed archive
    offers a reference trajectory, and otherwise the notice that no truth
    was found, however many estimates were loaded. *)
Theorem one_outcome_per_agent (zips : list zip) (auv_name : string) :
  outcomes (plot_auv zips auv_name) =
  [match head (omap reference_of zips) with
   | Some gt =>
       Saved auv_name
         {| plot_est := plotted (est_trajs (load_trajectories zips)); plot_gt := gt |}
   | None => No_truth auv_name
   end].
Proof. apply plot_auv_outcome. Qed.

Lemma plot_agents_outcomes agents :
  outcomes (plot_agents agents) =
  flat_map (fun a => outcomes (plot_auv (agent_zips a) (agent_name a)))
    (filter (fun a => agent_is_dir a = true) agents).
Proof.
  unfold plot_agents. rewrite outcomes_flat_map.
  induction agents as [|a agents IH]; [done |]. cbn [flat_map].
  destruct (agent_is_dir a) eqn:Ha.
  - rewrite filter_cons_True by done. cbn [flat_map]. by rewrite IH.
  - rewrite filter_cons_False by congruence. by rewrite IH.
Qed.

Lemma plot_bag_run bag :
  plot_bag bag =
  (plot_agents match bag_evo bag with
               | Evo_dir agents => if bag_is_dir bag then agents else []
               | _ => []
               end,
   if evo_is_file bag then Raise else Ok ()).
Proof.
  unfold plot_bag, evo_is_file. destruct (bag_is_dir bag), (bag_evo bag); done.
Qed.

Lemma plot_bag_outcomes bag :
  outcomes (plot_bag bag).1 =
  flat_map (fun a => outcomes (plot_auv (agent_zips a) (agent_name a))) (agents_of bag).
Proof.
  unfold plot_bag, agents_of. destruct (bag_is_dir bag); [|done]. cbn [negb].
  destruct (bag_evo bag) as [| |agents]; [done | done |]. apply plot_agents_outcomes.
Qed.

Lemma plot_bags_run bags :
  outcomes (plot_bags bags).1 =
    flat_map (fun a => outcomes (plot_auv (agent_zips a) (agent_name a)))
      (agents_visited bags) /\
  (plot_bags bags).2 =
    if bool_decide (Exists (fun bag => evo_is_file bag = true) bags) then Raise else Ok ().
Proof.
  unfold agents_visited.
  induction bags as [|bag bags [IHo IHr]].
  - split; [done |]. rewrite bool_decide_eq_false_2; [done |]. by intros H%Exists_nil.
  - cbn [plot_bags bags_before_crash].
    pose proof (plot_bag_outcomes bag) as Hbag. rewrite plot_bag_run in Hbag |- *.
    cbn [fst] in Hbag. destruct (evo_is_file bag) eqn:Hfile.
    + cbn [fst snd flat_map]. split.
      * rewrite Hbag. unfold agents_of, evo_is_file in *.
        destruct (bag_is_dir bag), (bag_evo bag); done.
      * rewrite bool_decide_eq_true_2; [done |]. by apply Exists_cons_hd.
    + destruct (plot_bags bags) as [es' r]. cbn [fst snd flat_map] in *. split.
      * by rewrite outcomes_app, flat_map_app, Hbag, IHo.
      * rewrite IHr. repeat case_bool_decide; try done.
        -- exfalso. eauto using Exists_cons_tl.
        -- exfalso. match goal with H : Exists _ (_ :: _) |- _ =>
             apply Exists_cons in H as [Hhd|Htl] end; [congruence | done].
Qed.

(** X17. [main] visits the agent directories below the [evo] directory of
    each bag directory, in iteration order, up to the first bag directory
    whose [evo] entry is a regular file: entries that are no directories
    and bags without [evo] yield nothing, and every agent directory
    visited yields its one outcome.  [main] runs to [Done] when no bag
    directory has a regular file for [evo]; otherwise [iterdir()] raises
    out of [main], the bags after that one yield nothing and [Done] is
    not printed. *)
Theorem main_outcomes (bags : list bag_entry) :
  outcomes (main (Root_dir bags)).1 =
    flat_map (fun a => outcomes (plot_auv (agent_zips a) (agent_name a)))
      (agents_visited bags) /\
  length (outcomes (main (Root_dir bags)).1) = length (agents_visited bags) /\
  (main (Root_dir bags)).2 =
    (if bool_decide (Exists (fun bag => evo_is_file bag = true) bags)
     then Raise else Ok ()) /\
  (Done ∈ (main (Root_dir bags)).1 <-> (main (Root_dir bags)).2 = Ok ()).
Proof.
  destruct (plot_bags_run bags) as [Ho Hr].
  assert (outcomes (main (Root_dir bags)).1 =
          flat_map (fun a => outcomes (plot_auv (agent_zips a) (agent_name a)))
            (agents_visited bags)) as Heq.
  { rewrite <- Ho. unfold main.
    destruct (plot_bags bags) as [es [[]|]]; cbn [fst]; rewrite !outcomes_app.
    - change (outcomes [Done]) with (@nil event). by rewrite app_nil_r.
    - done. }
  split; [done |]. split; [|split].
  - rewrite Heq. clear.
    induction (agents_visited bags) as [|a agents IH]; [done |]. cbn [flat_map].
    by rewrite length_app, plot_auv_outcome, IH.
  - rewrite <- Hr. unfold main. by destruct (plot_bags bags) as [es [[]|]].
  - pose proof (PipelineFacts.plot_bags_no_Done bags) as Hdone.
    unfold main. destruct (plot_bags bags) as [es [[]|]]; cbn [fst snd] in *.
    + split; [done |]. intros _. rewrite !elem_of_app, !list_elem_of_singleton. auto.
    + split; [|done]. rewrite elem_of_app, list_elem_of_singleton. intros [|]; done.
Qed.

Lemma add_start_end_markers_length traj s sc e ec :
  length (add_start_end_markers traj s sc e ec) <= 2.
Proof.
  unfold add_start_end_markers. case_bool_decide; [simpl; lia |].
  destruct (traj !! 0), (last traj); simpl; lia.
Qed.

(** X15. [add_start_end_markers] draws nothing for a trajectory without
    poses; otherwise it draws exactly two markers, the start symbol at the
    x and y of the first pose and the end symbol at the x and y of the last
    pose, whatever lies between and whatever the z coordinates are; for a
    single pose both markers are at that pose. *)
Theorem markers_at_first_and_last_pose
    (p q : Q * Q * Q) (mid : Trajectory) (s sc e ec : string) :
  add_start_end_markers [] s sc e ec = [] /\
  add_start_end_markers (p :: mid ++ [q]) s sc e ec =
    [{| sc_x := p.1.1; sc_y := p.1.2; sc_marker := s; sc_color := sc |};
     {| sc_x := q.1.1; sc_y := q.1.2; sc_marker := e; sc_color := ec |}] /\
  add_start_end_markers [p] s sc e ec =
    [{| sc_x := p.1.1; sc_y := p.1.2; sc_marker := s; sc_color := sc |};
     {| sc_x := p.1.1; sc_y := p.1.2; sc_marker := e; sc_color := ec |}].
Proof.
  split; [done |]. split; [|done].
  unfold add_start_end_markers. rewrite bool_decide_eq_false_2 by done.
  by rewrite app_comm_cons, last_snoc.
Qed.

Lemma lines_Marker l : lines (Marker <$> l) = [].
Proof. induction l; [done | by cbn]. Qed.

Lemma markers_Marker l : markers (Marker <$> l) = l.
Proof. induction l as [|x l IH]; [done |]. cbn. f_equal. exact IH. Qed.

Lemma lines_app ds ds' : lines (ds ++ ds') = lines ds ++ lines ds'.
Proof. apply omap_app. Qed.

Lemma markers_app ds ds' : markers (ds ++ ds') = markers ds ++ markers ds'.
Proof. apply omap_app. Qed.

Lemma lines_Traj_line traj style color label ds :
  lines (Traj_line traj style color label :: ds) = (label, traj) :: lines ds.
Proof. reflexivity. Qed.

Lemma markers_Traj_line traj style color label ds :
  markers (Traj_line traj style color label :: ds) = markers ds.
Proof. reflexivity. Qed.

Lemma COLORS_GT : COLORS !! "GT" = Some "black".
Proof. reflexivity. Qed.

Lemma draw_estimates_ok (algos : list string) (est : gmap string Trajectory) :
  Forall (fun algo => is_Some (COLORS !! algo)) algos ->
  exists ds,
    draw_estimates algos est = Ok ds /\
    lines ds = omap (fun algo => (fun t => (algo, t)) <$> est !! algo) algos /\
    length (markers ds) <= 2 * length (lines ds).
Proof.
  induction 1 as [|algo algos [color Hc] _ (ds & Hds & Hl & Hm)];
    cbn [draw_estimates omap list_omap].
  - exists []. by repeat split.
  - destruct (est !! algo) as [traj|]; cbn [fmap option_fmap option_map];
      [|by exists ds].
    rewrite Hc, Hds. cbn [of_option bind]. eexists. split; [done |].
    rewrite lines_Traj_line, markers_Traj_line, lines_app, markers_app.
    rewrite lines_Marker, markers_Marker, Hl. split; [done |].
    pose proof (add_start_end_markers_length traj "o" color "x" color).
    rewrite Hl in Hm. rewrite length_app. cbn [app length]. lia.
Qed.

(** X16. Drawing an agent never fails on a colour lookup, whatever was
    stored: every catalog label and the ground truth have a colour. The
    lines drawn are the plotted estimates, in catalog order and each under
    its label, followed by the ground truth under [GT], and each line has at
    most two markers. *)
Theorem draw_auv_lines (est : gmap string Trajectory) (gt : Trajectory) :
  exists ds,
    draw_auv est gt = Ok ds /\
    lines ds = plotted est ++ [("GT", gt)] /\
    length (markers ds) <= 2 * length (lines ds).
Proof.
  destruct (draw_estimates_ok ALGORITHMS est) as (ds & Hds & Hl & Hm).
  { unfold ALGORITHMS. repeat (apply Forall_cons; split; [by eexists |]). constructor. }
  unfold draw_auv. rewrite Hds, COLORS_GT. cbn [of_option bind].
  eexists. split; [done |].
  rewrite lines_app, markers_app, lines_Traj_line, markers_Traj_line.
  rewrite lines_Marker, markers_Marker, Hl. split; [done |].
  pose proof (add_start_end_markers_length gt "o" "black" "x" "black").
  rewrite Hl in Hm. rewrite !length_app. cbn [length]. unfold plotted. lia.
Qed.

End TrajPlotMore.
